(** * HoudiniEngineForUnreal-v2: package parameters and runtime utilities

    A shallow embedding of

      - [Source/HoudiniEngine/Private/HoudiniPackageParams.h]
        (the token maps built by [FHoudiniPackageParams]), and
      - [Source/HoudiniEngineRuntime/Private/HoudiniEngineRuntimeUtils.cpp]
        (actor queries, safe deletion, component property copy),

    together with the properties the plugin's specification states about
    them.  The plugin is an adaptation layer over the host editor: every
    host entry point the utilities call is an explicit parameter of the
    section that embeds the caller, so each theorem holds for every
    behaviour of the host. *)

From Stdlib Require Import ZArith String Ascii Bool Lia.
From stdpp Require Import gmap strings list.

Set Warnings "-clear-no-such-hyp".

Local Open Scope string_scope.
Local Open Scope list_scope.

(** ** Machine integers *)

(** [int32] arithmetic: the value of [z] in two's complement. *)
Definition int32_wrap (z : Z) : Z :=
  ((z + 2 ^ 31) mod 2 ^ 32 - 2 ^ 31)%Z.

Lemma int32_wrap_add_l a b :
  int32_wrap (int32_wrap a + b) = int32_wrap (a + b).
Proof.
  unfold int32_wrap. f_equal.
  replace ((a + 2 ^ 31) mod 2 ^ 32 - 2 ^ 31 + b + 2 ^ 31)%Z
    with ((a + 2 ^ 31) mod 2 ^ 32 + b)%Z by lia.
  rewrite Zplus_mod_idemp_l. f_equal. lia.
Qed.

Lemma int32_wrap_le n : (0 <= n -> int32_wrap n <= n)%Z.
Proof.
  intros Hn. unfold int32_wrap.
  pose proof (Z.mod_le (n + 2 ^ 31) (2 ^ 32)) as H. lia.
Qed.

(** Small [int32] values are their own wrap. *)
Lemma int32_wrap_small (z : Z) : (0 <= z < 2 ^ 31)%Z -> int32_wrap z = z.
Proof.
  intros Hz. unfold int32_wrap. rewrite Z.mod_small; lia.
Qed.

(** ** Package parameters: [HoudiniPackageParams.h] *)

Module PackageParams.

Inductive EPackageMode : Type :=
| CookToLevel
| CookToTemp
| Bake.

Inductive EPackageReplaceMode : Type :=
| CreateNewAssets
| ReplaceExistingAssets.

(** [FGuid]: four unsigned 32-bit words. *)
Record FGuid : Type := {
  GuidA : Z;
  GuidB : Z;
  GuidC : Z;
  GuidD : Z
}.

(** The [UPROPERTY] fields of the struct, in declaration order.
    [OuterPackage] is a pointer, kept as an address. *)
Record FHoudiniPackageParams : Type := {
  PackageMode : EPackageMode;
  ReplaceMode : EPackageReplaceMode;
  BakeFolder : string;
  TempCookFolder : string;
  OuterPackage : N;
  ObjectName : string;
  HoudiniAssetName : string;
  HoudiniAssetActorName : string;
  ObjectId : Z;
  GeoId : Z;
  PartId : Z;
  SplitStr : string;
  ComponentGUID : FGuid;
  PDGTOPNetworkName : string;
  PDGTOPNodeName : string;
  PDGWorkItemIndex : Z;
  bAttemptToLoadMissingPackages : bool
}.

Definition GetDefaultStaticMeshesCookMode : EPackageMode := CookToTemp.
Definition GetDefaultMaterialAndTextureCookMode : EPackageMode := CookToTemp.
Definition GetDefaultReplaceMode : EPackageReplaceMode := ReplaceExistingAssets.

Section Tokens.

(** The template parameter [ValueT] and its converting constructor
    from [FString]. *)
Variable ValueT : Type.
Variable MakeValue : string -> ValueT.

(** Host string helpers: [FPaths::GetPath], [FString::FromInt] and
    [FGuid::ToString]. *)
Variable GetPath : string -> string.
Variable FromInt : Z -> string.
Variable GuidToString : FGuid -> string.

(** [UWorld] and [UObject::GetPathName] on it. *)
Variable UWorld : Type.
Variable GetPathName : UWorld -> string.

(** [FHoudiniPackageParams::GetPackagePath] is only declared in the
    header; its body lives in a translation unit that is not part of
    the excerpt. *)
Variable GetPackagePath : FHoudiniPackageParams -> string.

(** [TMap::Add] overwrites the value of a key that is present. *)
Definition Add (k : string) (v : ValueT) (m : gmap string ValueT)
  : gmap string ValueT := <[k := v]> m.

Definition UpdateOutputPathTokens (P : FHoudiniPackageParams)
    (InPackageMode : EPackageMode) (OutTokens : gmap string ValueT)
  : gmap string ValueT :=
  let PackagePath := GetPackagePath P in
  let t1 := Add "temp" (MakeValue (GetPath (TempCookFolder P))) OutTokens in
  let t2 := Add "bake" (MakeValue (GetPath (BakeFolder P))) t1 in
  let t3 :=
    match InPackageMode with
    | CookToTemp | CookToLevel =>
        Add "out_basepath" (MakeValue (GetPath (TempCookFolder P))) t2
    | Bake =>
        Add "out_basepath" (MakeValue (GetPath (BakeFolder P))) t2
    end in
  Add "out" (MakeValue (GetPath PackagePath)) t3.

Definition UpdateTokensFromParams (P : FHoudiniPackageParams)
    (WorldContext : UWorld) (OutTokens : gmap string ValueT)
  : gmap string ValueT :=
  let t0 := UpdateOutputPathTokens P (PackageMode P) OutTokens in
  let t1 := Add "world" (MakeValue (GetPath (GetPathName WorldContext))) t0 in
  let t2 := Add "object_name" (MakeValue (ObjectName P)) t1 in
  let t3 := Add "object_id" (MakeValue (FromInt (ObjectId P))) t2 in
  let t4 := Add "geo_id" (MakeValue (FromInt (GeoId P))) t3 in
  let t5 := Add "part_id" (MakeValue (FromInt (PartId P))) t4 in
  let t6 := Add "split_str" (MakeValue (SplitStr P)) t5 in
  let t7 := Add "hda_name" (MakeValue (HoudiniAssetName P)) t6 in
  let t8 := Add "hda_actor_name" (MakeValue (HoudiniAssetActorName P)) t7 in
  let t9 := Add "pdg_topnet_name" (MakeValue (PDGTOPNetworkName P)) t8 in
  let t10 := Add "pdg_topnode_name" (MakeValue (PDGTOPNodeName P)) t9 in
  let t11 :=
    Add "pdg_workitem_index" (MakeValue (FromInt (PDGWorkItemIndex P))) t10 in
  Add "guid" (MakeValue (GuidToString (ComponentGUID P))) t11.

(** The keys written by the two functions, in the order of the calls
    to [Add]. *)
Definition OutputPathKeys : list string :=
  ["temp"; "bake"; "out_basepath"; "out"].

Definition ParamKeys : list string :=
  ["world"; "object_name"; "object_id"; "geo_id"; "part_id"; "split_str";
   "hda_name"; "hda_actor_name"; "pdg_topnet_name"; "pdg_topnode_name";
   "pdg_workitem_index"; "guid"].

Definition WrittenKeys : list string :=
  (OutputPathKeys ++ ParamKeys)%list.

Ltac unfold_tokens :=
  unfold UpdateTokensFromParams, UpdateOutputPathTokens, Add; cbn zeta.

(** A key that is none of the sixteen written ones keeps its binding. *)
Lemma UpdateTokensFromParams_frame P W toks k :
  k ∉ WrittenKeys ->
  UpdateTokensFromParams P W toks !! k = toks !! k.
Proof.
  intros Hk. unfold_tokens.
  assert (Hne : forall k', k' ∈ WrittenKeys -> k' <> k).
  { intros k' Hin ->. contradiction. }
  destruct (PackageMode P);
    repeat (rewrite lookup_insert_ne;
            [| apply Hne; unfold WrittenKeys, OutputPathKeys, ParamKeys; cbn;
               set_solver]);
    reflexivity.
Qed.

(** The tokens of the documented list that the code does write. *)
Lemma UpdateTokensFromParams_documented_present P W toks :
  UpdateTokensFromParams P W toks !! "out"
    = Some (MakeValue (GetPath (GetPackagePath P)))
  /\ UpdateTokensFromParams P W toks !! "world"
    = Some (MakeValue (GetPath (GetPathName W)))
  /\ UpdateTokensFromParams P W toks !! "hda_name"
    = Some (MakeValue (HoudiniAssetName P))
  /\ UpdateTokensFromParams P W toks !! "guid"
    = Some (MakeValue (GuidToString (ComponentGUID P))).
Proof.
  unfold_tokens.
  repeat split; destruct (PackageMode P); by simplify_map_eq.
Qed.

(** C7 (evaluation of the code at the failing input).  Starting from
    an empty token map, [UpdateTokensFromParams] leaves no binding
    for the key "pkg", although the comment above the function lists
    [{pkg}] among the named arguments it builds; the tokens "out",
    "world", "hda_name" and "guid" of the same list are bound. *)
Theorem UpdateTokensFromParams_pkg_missing P W :
  UpdateTokensFromParams P W ∅ !! "pkg" = None
  /\ ("pkg" ∉ dom (UpdateTokensFromParams P W ∅))
  /\ is_Some (UpdateTokensFromParams P W ∅ !! "out")
  /\ is_Some (UpdateTokensFromParams P W ∅ !! "world")
  /\ is_Some (UpdateTokensFromParams P W ∅ !! "hda_name")
  /\ is_Some (UpdateTokensFromParams P W ∅ !! "guid").
Proof.
  assert (Hnone : UpdateTokensFromParams P W ∅ !! "pkg" = None).
  { rewrite UpdateTokensFromParams_frame; [apply lookup_empty |].
    unfold WrittenKeys, OutputPathKeys, ParamKeys; cbn.
    rewrite !elem_of_cons, elem_of_nil. intros H.
    repeat (destruct H as [H | H]; [discriminate H |]). exact H. }
  destruct (UpdateTokensFromParams_documented_present P W ∅)
    as (Ho & Hw & Hh & Hg).
  split; [exact Hnone |].
  split; [by apply not_elem_of_dom |].
  rewrite Ho, Hw, Hh, Hg. repeat split; eexists; reflexivity.
Qed.

(** C8.  The package mode selects the folder behind "out_basepath":
    the temp cook folder for [CookToTemp] and [CookToLevel], the bake
    folder for [Bake]; [UpdateTokensFromParams] passes the struct's
    own [PackageMode], and none of its later [Add]s touches the key. *)
Theorem UpdateOutputPathTokens_out_basepath P W toks :
  UpdateOutputPathTokens P CookToTemp toks !! "out_basepath"
    = Some (MakeValue (GetPath (TempCookFolder P)))
  /\ UpdateOutputPathTokens P CookToLevel toks !! "out_basepath"
    = Some (MakeValue (GetPath (TempCookFolder P)))
  /\ UpdateOutputPathTokens P Bake toks !! "out_basepath"
    = Some (MakeValue (GetPath (BakeFolder P)))
  /\ UpdateTokensFromParams P W toks !! "out_basepath"
    = UpdateOutputPathTokens P (PackageMode P) toks !! "out_basepath".
Proof.
  unfold_tokens.
  repeat split; try destruct (PackageMode P); by simplify_map_eq.
Qed.

(** *** Further properties of the token maps *)





End Tokens.

End PackageParams.

(** ** Actor queries: [FindActorsOfClassInBounds] and
       [GetBoundingBoxesFromActors] *)

Module ActorQuery.

(** Actors are handled through [AActor*]; the model keeps the address. *)
Definition AActor : Type := N.

Section World.

(** Host types and entry points used by the two queries. *)
Variable UWorld : Type.
Variable UClass : Type.
Variable FBox : Type.

(** [IsValid(World)]: non-null and not pending kill. *)
Variable IsValidWorld : UWorld -> bool.
(** The actors [TActorIterator<AActor>] yields for a world, in
    iteration order. *)
Variable WorldActors : UWorld -> list AActor.
(** [IsValid(Actor)] and, for [GetBoundingBoxesFromActors], the test
    [!Actor || Actor->IsPendingKill()]. *)
Variable IsValidActor : AActor -> bool.
Variable IsNullOrPendingKill : AActor -> bool.
Variable GetClass : AActor -> UClass.
(** [UClass::IsChildOf] against [ActorType.Get()], which may be null. *)
Variable IsChildOf : UClass -> option UClass -> bool.
Variable GetName : UClass -> string.
(** [FString::Contains] with its default arguments. *)
Variable Contains : string -> string -> bool.
(** [AActor::GetComponentsBoundingBox(bNonColliding,
    bIncludeFromChildActors)]. *)
Variable GetComponentsBoundingBox : AActor -> bool -> bool -> FBox.
Variable Intersect : FBox -> FBox -> bool.

(** [TArray::Contains] on actor pointers. *)
Definition ArrayContains (l : list AActor) (a : AActor) : bool :=
  existsb (N.eqb a) l.

Fixpoint GetBoundingBoxesLoop (InActors : list AActor)
    (OutBBoxes : list FBox) : list FBox :=
  match InActors with
  | [] => OutBBoxes
  | CurrentActor :: rest =>
      if IsNullOrPendingKill CurrentActor
      then GetBoundingBoxesLoop rest OutBBoxes
      else GetBoundingBoxesLoop rest
             (OutBBoxes ++ [GetComponentsBoundingBox CurrentActor true true])
  end.

Definition GetBoundingBoxesFromActors (InActors : list AActor)
    (OutBBoxes : list FBox) : list FBox :=
  GetBoundingBoxesLoop InActors [].

(** The inner [for (auto InBounds : BBoxes)] loop: [true] when it left
    through [OutActors.Add(CurrentActor); break;]. *)
Fixpoint BoundsLoop (ActorBounds : FBox) (BBoxes : list FBox) : bool :=
  match BBoxes with
  | [] => false
  | InBounds :: rest =>
      if negb (Intersect ActorBounds InBounds)
      then BoundsLoop ActorBounds rest
      else true
  end.

Fixpoint ActorLoop (ActorType : option UClass) (BBoxes : list FBox)
    (ExcludeActors : option (list AActor))
    (Actors : list AActor) (OutActors : list AActor) : list AActor :=
  match Actors with
  | [] => OutActors
  | CurrentActor :: rest =>
      let continue := ActorLoop ActorType BBoxes ExcludeActors rest in
      if negb (IsValidActor CurrentActor) then continue OutActors
      else if negb (IsChildOf (GetClass CurrentActor) ActorType)
      then continue OutActors
      else if match ExcludeActors with
              | Some excl => ArrayContains excl CurrentActor
              | None => false
              end
      then continue OutActors
      else
        let ClassName := GetName (GetClass CurrentActor) in
        if Contains ClassName "BP_Sky_Sphere" then continue OutActors
        else
          let ActorBounds :=
            GetComponentsBoundingBox CurrentActor true false in
          if BoundsLoop ActorBounds BBoxes
          then continue (OutActors ++ [CurrentActor])
          else continue OutActors
  end.

(** Returns the [bool] result and the final contents of [OutActors]. *)
Definition FindActorsOfClassInBounds (World : UWorld)
    (ActorType : option UClass) (BBoxes : list FBox)
    (ExcludeActors : option (list AActor)) (OutActors : list AActor)
  : bool * list AActor :=
  if negb (IsValidWorld World) then (false, OutActors)
  else (true, ActorLoop ActorType BBoxes ExcludeActors
                (WorldActors World) []).

(** The selection the specification describes, as a decidable test on
    one actor. *)
Definition InExclusionSet (ExcludeActors : option (list AActor))
    (a : AActor) : bool :=
  match ExcludeActors with
  | Some excl => ArrayContains excl a
  | None => false
  end.

Definition Selected (ActorType : option UClass) (BBoxes : list FBox)
    (ExcludeActors : option (list AActor)) (a : AActor) : bool :=
  IsValidActor a
  && IsChildOf (GetClass a) ActorType
  && negb (InExclusionSet ExcludeActors a)
  && negb (Contains (GetName (GetClass a)) "BP_Sky_Sphere")
  && existsb (Intersect (GetComponentsBoundingBox a true false)) BBoxes.

Lemma BoundsLoop_existsb b boxes :
  BoundsLoop b boxes = existsb (Intersect b) boxes.
Proof.
  induction boxes as [| x boxes IH]; cbn; [reflexivity |].
  rewrite IH. destruct (Intersect b x); reflexivity.
Qed.

Lemma ActorLoop_filter ty boxes excl actors out :
  ActorLoop ty boxes excl actors out
  = (out ++ List.filter (Selected ty boxes excl) actors)%list.
Proof.
  revert out.
  induction actors as [| a actors IH]; intros out; cbn [ActorLoop List.filter].
  - symmetry. apply app_nil_r.
  - unfold Selected at 1, InExclusionSet.
    rewrite <- BoundsLoop_existsb.
    destruct (IsValidActor a); cbn; [| apply IH].
    destruct (IsChildOf (GetClass a) ty); cbn; [| apply IH].
    destruct (match excl with Some e => ArrayContains e a | None => false end);
      cbn; [apply IH |].
    destruct (Contains (GetName (GetClass a)) "BP_Sky_Sphere");
      cbn; [apply IH |].
    destruct (BoundsLoop (GetComponentsBoundingBox a true false) boxes);
      cbn; [| apply IH].
    rewrite IH, <- app_assoc. reflexivity.
Qed.

Lemma ArrayContains_In l a : ArrayContains l a = true <-> In a l.
Proof.
  unfold ArrayContains. rewrite existsb_exists. split.
  - intros (x & Hx & Heq). apply N.eqb_eq in Heq. by subst.
  - intros Hin. exists a. split; [exact Hin | apply N.eqb_refl].
Qed.

(** C6.  On a valid world the query returns [true] and [OutActors]
    holds, in iteration order, exactly the world's actors that are
    valid, of the given class or a subclass, outside the exclusion
    array (when one is passed), whose class name does not contain
    "BP_Sky_Sphere", and whose component bounding box intersects at
    least one of the given boxes; on an invalid world it returns
    [false] (and leaves [OutActors] alone). *)
Theorem FindActorsOfClassInBounds_spec World ActorType BBoxes
    ExcludeActors OutActors :
  FindActorsOfClassInBounds World ActorType BBoxes ExcludeActors OutActors
  = (if IsValidWorld World
     then (true, List.filter (Selected ActorType BBoxes ExcludeActors)
                   (WorldActors World))
     else (false, OutActors))
  /\ forall a,
       In a (List.filter (Selected ActorType BBoxes ExcludeActors)
               (WorldActors World))
       <-> (In a (WorldActors World)
            /\ IsValidActor a = true
            /\ IsChildOf (GetClass a) ActorType = true
            /\ (forall excl, ExcludeActors = Some excl -> ~ In a excl)
            /\ Contains (GetName (GetClass a)) "BP_Sky_Sphere" = false
            /\ exists b, In b BBoxes
                 /\ Intersect (GetComponentsBoundingBox a true false) b
                    = true).
Proof.
  split.
  - unfold FindActorsOfClassInBounds.
    destruct (IsValidWorld World); cbn; [| reflexivity].
    rewrite ActorLoop_filter. reflexivity.
  - intros a. rewrite filter_In. unfold Selected.
    rewrite !andb_true_iff, !negb_true_iff, existsb_exists.
    assert (Hex : InExclusionSet ExcludeActors a = false
                  <-> forall excl, ExcludeActors = Some excl -> ~ In a excl).
    { unfold InExclusionSet. destruct ExcludeActors as [l |].
      - rewrite <- not_true_iff_false, ArrayContains_In. split.
        + intros Hn excl [= <-]. exact Hn.
        + intros H. by apply H.
      - split; [intros _ excl [=] | reflexivity]. }
    rewrite Hex. tauto.
Qed.

(** *** Further properties of the two queries *)

Lemma GetBoundingBoxesLoop_spec actors : forall out,
  GetBoundingBoxesLoop actors out
  = out ++ map (fun a => GetComponentsBoundingBox a true true)
             (List.filter (fun a => negb (IsNullOrPendingKill a)) actors).
Proof.
  induction actors as [| a actors IH]; intros out; cbn.
  - by rewrite app_nil_r.
  - destruct (IsNullOrPendingKill a); cbn; [apply IH |].
    by rewrite IH, <- app_assoc.
Qed.

(** [GetBoundingBoxesFromActors] drops whatever [OutBBoxes] held and
    returns, in the order of the input, one box for each actor that is
    neither null nor pending kill; the others are passed over. *)
Theorem GetBoundingBoxesFromActors_spec InActors OutBBoxes :
  GetBoundingBoxesFromActors InActors OutBBoxes
  = map (fun a => GetComponentsBoundingBox a true true)
      (List.filter (fun a => negb (IsNullOrPendingKill a)) InActors)
  /\ length (GetBoundingBoxesFromActors InActors OutBBoxes)
     <= length InActors
  /\ (length (GetBoundingBoxesFromActors InActors OutBBoxes)
      = length InActors
      <-> forall a, In a InActors -> IsNullOrPendingKill a = false).
Proof.
  unfold GetBoundingBoxesFromActors. rewrite GetBoundingBoxesLoop_spec.
  cbn [app]. split; [reflexivity |]. rewrite length_map.
  induction InActors as [| a l IH]; cbn.
  - split; [lia |]. split; [by intros _ a [] | reflexivity].
  - destruct IH as [Hle Hiff].
    destruct (IsNullOrPendingKill a) eqn:Ha; cbn.
    + split; [lia |]. split; [lia |].
      intros Hall. specialize (Hall a (or_introl eq_refl)). congruence.
    + split; [lia |]. split.
      * intros Hlen a' [<- | Hin]; [exact Ha |].
        apply Hiff; [lia | exact Hin].
      * intros Hall. f_equal. apply Hiff. intros a' Hin. apply Hall.
        by right.
Qed.

Lemma filter_sublist {A} (f : A -> bool) (l : list A) :
  List.filter f l `sublist_of` l.
Proof.
  induction l as [| x l IH]; cbn; [constructor |].
  destruct (f x); by constructor.
Qed.

(** On a valid world the output of [FindActorsOfClassInBounds] is a
    subsequence of the actors the iterator yields: their order is kept,
    and an actor the iterator yields once is listed at most once. *)
Theorem FindActorsOfClassInBounds_sublist World ActorType BBoxes
    ExcludeActors OutActors :
  IsValidWorld World = true ->
  (FindActorsOfClassInBounds World ActorType BBoxes ExcludeActors OutActors).2
    `sublist_of` WorldActors World
  /\ (NoDup (WorldActors World) ->
      NoDup (FindActorsOfClassInBounds World ActorType BBoxes ExcludeActors
               OutActors).2).
Proof.
  intros Hvalid. unfold FindActorsOfClassInBounds. rewrite Hvalid. cbn.
  rewrite ActorLoop_filter. cbn [app].
  split; [apply filter_sublist |].
  intros Hnd. exact (sublist_NoDup _ _ Hnd (filter_sublist _ _)).
Qed.

(** Edge cases of the query on a valid world: without boxes nothing is
    found, and an empty exclusion array behaves like a null one. *)
Theorem FindActorsOfClassInBounds_edges World ActorType BBoxes OutActors :
  IsValidWorld World = true ->
  (forall excl,
     FindActorsOfClassInBounds World ActorType [] excl OutActors
     = (true, []))
  /\ FindActorsOfClassInBounds World ActorType BBoxes (Some []) OutActors
     = FindActorsOfClassInBounds World ActorType BBoxes None OutActors.
Proof.
  intros Hvalid. unfold FindActorsOfClassInBounds. rewrite Hvalid. cbn.
  split.
  - intros excl. rewrite ActorLoop_filter. cbn [app]. f_equal.
    induction (WorldActors World) as [| a l IH]; cbn; [reflexivity |].
    unfold Selected at 1. cbn. by rewrite andb_false_r.
  - rewrite !ActorLoop_filter. reflexivity.
Qed.

Lemma Selected_boxes ty boxes excl a :
  Selected ty boxes excl a = true
  <-> Selected ty [] excl a = false
      /\ exists b, In b boxes
           /\ Selected ty [b] excl a = true.
Proof.
  unfold Selected. cbn [existsb].
  set (R := IsValidActor a && IsChildOf (GetClass a) ty
            && negb (InExclusionSet excl a)
            && negb (Contains (GetName (GetClass a)) "BP_Sky_Sphere")).
  rewrite andb_false_r. split.
  - intros H. apply andb_true_iff in H as [HR Hex].
    apply existsb_exists in Hex as (b & Hb & Hi).
    split; [reflexivity |]. exists b. split; [exact Hb |].
    by rewrite HR, Hi.
  - intros (_ & b & Hb & H). apply andb_true_iff in H as [HR Hi].
    rewrite orb_false_r in Hi. rewrite HR. cbn.
    apply existsb_exists. by exists b.
Qed.

(** The boxes act as a union: an actor is found for a list of boxes
    exactly when it is found for one of the boxes alone.  So the output
    depends on the set of boxes only, not on their order or
    multiplicity, and more boxes never find fewer actors. *)
Theorem FindActorsOfClassInBounds_boxes World ActorType BBoxes
    ExcludeActors OutActors :
  (forall a,
     In a (FindActorsOfClassInBounds World ActorType BBoxes ExcludeActors
             OutActors).2
     <-> (IsValidWorld World = false /\ In a OutActors)
         \/ (IsValidWorld World = true
             /\ exists b, In b BBoxes
                  /\ In a (FindActorsOfClassInBounds World ActorType [b]
                             ExcludeActors OutActors).2))
  /\ forall BBoxes',
       (forall b, In b BBoxes <-> In b BBoxes') ->
       FindActorsOfClassInBounds World ActorType BBoxes ExcludeActors
         OutActors
       = FindActorsOfClassInBounds World ActorType BBoxes' ExcludeActors
           OutActors.
Proof.
  unfold FindActorsOfClassInBounds.
  destruct (IsValidWorld World); cbn.
  2: { split; [| reflexivity]. intros a. split; [by left | ].
       intros [[_ H] | [[=] _]]. exact H. }
  split.
  - intros a. rewrite ActorLoop_filter. cbn [app].
    rewrite filter_In, Selected_boxes. split.
    + intros (Hin & _ & b & Hb & Hsel). right. split; [reflexivity |].
      exists b. split; [exact Hb |].
      rewrite ActorLoop_filter. cbn [app]. by apply filter_In.
    + intros [[[=] _] | (_ & b & Hb & Hin)].
      rewrite ActorLoop_filter in Hin. cbn [app] in Hin.
      apply filter_In in Hin as [Hin Hsel]. split; [exact Hin |].
      split; [| by exists b].
      unfold Selected. cbn. by rewrite andb_false_r.
  - intros BBoxes' Hsame. rewrite !ActorLoop_filter. cbn [app]. f_equal.
    apply filter_ext. intros a. unfold Selected. f_equal.
    apply eq_true_iff_eq. rewrite !existsb_exists.
    split; intros (b & Hb & Hi); exists b; (split; [by apply Hsame | exact Hi]).
Qed.

End World.

(** *** A sample world

    Boxes are intervals on a line; the world holds five actors, of which
    actor 3 is pending kill and actor 4 is a sky sphere.  Classes are
    numbered, class 2 derives from class 1. *)
Module Sample.

Definition FBox : Type := (Z * Z)%type.
Definition Intersect (a b : FBox) : bool :=
  negb ((a.2 <? b.1)%Z || (b.2 <? a.1)%Z).

Definition IsValidWorld (w : bool) : bool := w.
Definition WorldActors (w : bool) : list AActor := [1; 2; 3; 4; 5]%N.
Definition IsValidActor (a : AActor) : bool :=
  negb (a =? 0)%N && negb (a =? 3)%N.
Definition GetClass (a : AActor) : N :=
  if (a =? 4)%N then 9%N else if (a =? 5)%N then 2%N else 1%N.
Definition IsChildOf (c : N) (ty : option N) : bool :=
  match ty with
  | Some t => (c =? t)%N || ((c =? 2)%N && (t =? 1)%N)
  | None => false
  end.
Definition GetName (c : N) : string :=
  if (c =? 9)%N then "BP_Sky_Sphere_C" else "StaticMeshActor".
(** [FString::Contains] with its default arguments, [IgnoreCase] and
    [FromStart]: the search compares upper-cased characters, and an empty
    pattern is found nowhere. *)
Definition ToUpper (c : ascii) : ascii :=
  let n := nat_of_ascii c in
  if (97 <=? n)%nat && (n <=? 122)%nat then ascii_of_nat (n - 32) else c.
Fixpoint ToUpperString (s : string) : string :=
  match s with
  | EmptyString => EmptyString
  | String c rest => String (ToUpper c) (ToUpperString rest)
  end.
Fixpoint Stristr (s sub : string) : bool :=
  String.prefix (ToUpperString sub) (ToUpperString s)
  || match s with
     | EmptyString => false
     | String _ rest => Stristr rest sub
     end.
Definition Contains (s sub : string) : bool :=
  match sub with
  | EmptyString => false
  | _ => Stristr s sub
  end.
Definition GetComponentsBoundingBox (a : AActor) (b1 b2 : bool) : FBox :=
  (10 * Z.of_N a, 10 * Z.of_N a + 5)%Z.

Definition FindActorsOfClassInBounds :=
  ActorQuery.FindActorsOfClassInBounds bool N FBox IsValidWorld WorldActors
    IsValidActor GetClass IsChildOf GetName Contains
    GetComponentsBoundingBox Intersect.

End Sample.

Example FindActorsOfClassInBounds_sample :
  Sample.FindActorsOfClassInBounds true (Some 1%N)
    [(0, 12); (48, 60)]%Z (Some [2%N]) [7%N]
  = (true, [1; 5]%N)
  /\ Sample.FindActorsOfClassInBounds true (Some 9%N)
       [(0, 100)]%Z None []
     = (true, [])
  /\ Sample.FindActorsOfClassInBounds false (Some 1%N)
       [(0, 100)]%Z None [7%N]
     = (false, [7%N])
  /\ Sample.Contains "My_bp_sky_sphere_2" "BP_Sky_Sphere" = true
  /\ Sample.Contains "StaticMeshActor" "BP_Sky_Sphere" = false.
Proof. vm_compute. auto. Qed.

Lemma FindActorsOfClassInBounds_sublist_witness :
  Sample.IsValidWorld true = true
  /\ ((Sample.FindActorsOfClassInBounds true (Some 1%N) [(0, 12)%Z]
         None []).2
        `sublist_of` Sample.WorldActors true
      /\ (NoDup (Sample.WorldActors true) ->
          NoDup (Sample.FindActorsOfClassInBounds true (Some 1%N)
                   [(0, 12)%Z] None []).2)).
Proof.
  split; [reflexivity |].
  apply (FindActorsOfClassInBounds_sublist bool N Sample.FBox
           Sample.IsValidWorld Sample.WorldActors Sample.IsValidActor
           Sample.GetClass Sample.IsChildOf Sample.GetName Sample.Contains
           Sample.GetComponentsBoundingBox Sample.Intersect
           true (Some 1%N) [(0, 12)%Z] None []).
  reflexivity.
Defined.

Lemma FindActorsOfClassInBounds_edges_witness :
  Sample.IsValidWorld true = true
  /\ ((forall excl,
         Sample.FindActorsOfClassInBounds true (Some 1%N) [] excl [7%N]
         = (true, []))
      /\ Sample.FindActorsOfClassInBounds true (Some 1%N) [(0, 12)%Z]
           (Some []) [7%N]
         = Sample.FindActorsOfClassInBounds true (Some 1%N) [(0, 12)%Z]
             None [7%N]).
Proof.
  split; [reflexivity |].
  apply (FindActorsOfClassInBounds_edges bool N Sample.FBox
           Sample.IsValidWorld Sample.WorldActors Sample.IsValidActor
           Sample.GetClass Sample.IsChildOf Sample.GetName Sample.Contains
           Sample.GetComponentsBoundingBox Sample.Intersect
           true (Some 1%N) [(0, 12)%Z] [7%N]).
  reflexivity.
Defined.

End ActorQuery.

(** ** Safe deletion: [SafeDeleteSingleObject] and [SafeDeleteObjects] *)

Module Deletion.

(** [UObject*] and [UPackage*] are addresses; [nullptr] is [0]. *)
Definition UObject : Type := N.
Definition UPackage : Type := N.
Definition nullptr : N := 0%N.

(** What one pass of the [while] loop of [SafeDeleteObjects] did with
    the object it popped (once the object got past the
    [ProcessedObjects] test). *)
Inductive Outcome : Type :=
| SkippedInvalid
    (* [if (!IsValid(ObjectToDelete)) continue;] *)
| NotDeleted
    (* [SafeDeleteSingleObject] returned [false] *)
| Deleted (Package : UPackage) (bInMemoryPackageOnly : bool).
    (* [SafeDeleteSingleObject] returned [true] *)

(** The calls the two functions make into the host, in the order they
    are made.  [EvVisit] is a marker, not a call: the loop of
    [SafeDeleteObjects] leaves one at the end of each pass over a new
    object. *)
Inductive Event : Type :=
| EvGatherObjectReferencersForDeletion
    (o : UObject) (ok bIsReferenced bIsReferencedByUndo : bool)
| EvDeleteSingleObject (o : UObject) (bCheckForReferences ok : bool)
| EvCollectGarbage
| EvCleanupAfterSuccessfulDelete (Packages : list UPackage)
| EvVisit (o : UObject) (r : Outcome).

(** The local variables of [SafeDeleteObjects] with its two array
    arguments. *)
Record Locals : Type := {
  InObjectsToDelete : list UObject;
  OutObjectsNotDeleted : option (list UObject);
  NumDeleted : Z;
  bGarbageCollectionRequired : bool;
  PackagesToCleanUp : list UPackage;
  ProcessedObjects : gset UObject
}.

(** [TArray::Pop]: removes and returns the last element. *)
Definition Pop {A : Type} (arr : list A) : option (A * list A) :=
  match rev arr with
  | [] => None
  | x :: r => Some (x, rev r)
  end.

(** [TSet::Add] on a set that nothing is removed from, the set held as
    the array [TSet::Array] gives back: a new element goes to the end,
    an element the set has already is not added again. *)
Definition TSetAdd (x : UPackage) (S : list UPackage) : list UPackage :=
  if bool_decide (x ∈ S) then S else S ++ [x].

(** The set after adding the elements of [l] one by one to [S]. *)
Definition TSetAddAll (S l : list UPackage) : list UPackage :=
  foldl (fun S x => TSetAdd x S) S l.

Section Host.

(** The editor's object system, as far as the deletion helpers see
    it.  Calls that may change it return the new state. *)
Variable HostState : Type.
Variable IsValid : HostState -> UObject -> bool.
Variable IsValidPackage : HostState -> UPackage -> bool.
(** Returns the call's [bool] result and the two out-parameters
    [bIsReferenced], [bIsReferencedByUndo]. *)
Variable GatherObjectReferencersForDeletion :
  HostState -> UObject -> bool * bool * bool * HostState.
Variable DeleteSingleObject :
  HostState -> UObject -> bool -> bool * HostState.
Variable GetOutermost : HostState -> UObject -> UPackage.
(** [FPackageName::DoesPackageExist(Package->GetName(), ...)]. *)
Variable DoesPackageExist : HostState -> UPackage -> bool.
Variable CollectGarbage : HostState -> HostState.
Variable CleanupAfterSuccessfulDelete :
  HostState -> list UPackage -> HostState.

(** Computations over the host: the state is threaded through and the
    calls made are collected. *)
Definition Host (A : Type) : Type :=
  HostState -> A * HostState * list Event.

Definition ret {A : Type} (a : A) : Host A :=
  fun s => (a, s, []).

Definition bind {A B : Type} (m : Host A) (k : A -> Host B) : Host B :=
  fun s =>
    let '(a, s1, t1) := m s in
    let '(b, s2, t2) := k a s1 in
    (b, s2, t1 ++ t2).

Notation "x <- m ;; k" := (bind m (fun x => k))
  (at level 100, m at next level, right associativity).
Notation "m ;;; k" := (bind m (fun _ => k))
  (at level 100, right associativity).

Definition query {A : Type} (f : HostState -> A) : Host A :=
  fun s => (f s, s, []).

Definition mark (e : Event) : Host unit :=
  fun s => (tt, s, [e]).

Definition callGather (o : UObject) : Host (bool * bool * bool) :=
  fun s =>
    let '(ok, bRef, bUndo, s') := GatherObjectReferencersForDeletion s o in
    ((ok, bRef, bUndo), s',
     [EvGatherObjectReferencersForDeletion o ok bRef bUndo]).

Definition callDeleteSingleObject (o : UObject) (bCheck : bool)
  : Host bool :=
  fun s =>
    let '(ok, s') := DeleteSingleObject s o bCheck in
    (ok, s', [EvDeleteSingleObject o bCheck ok]).

Definition callCollectGarbage : Host unit :=
  fun s => (tt, CollectGarbage s, [EvCollectGarbage]).

Definition callCleanupAfterSuccessfulDelete (pkgs : list UPackage)
  : Host unit :=
  fun s => (tt, CleanupAfterSuccessfulDelete s pkgs,
            [EvCleanupAfterSuccessfulDelete pkgs]).

(** Returns [(bDeleted, OutPackage, bOutPackageIsInMemoryOnly)]. *)
Definition SafeDeleteSingleObject (InObjectToDelete : UObject)
  : Host (bool * UPackage * bool) :=
  valid <- query (fun s => IsValid s InObjectToDelete) ;;
  if negb valid then ret (false, nullptr, false)
  else
    g <- callGather InObjectToDelete ;;
    let '(ok, bIsReferenced, _) := g in
    if negb ok then ret (false, nullptr, false)
    else if bIsReferenced : bool then
      (* HOUDINI_LOG_WARNING: not deleting, still referenced *)
      ret (false, nullptr, false)
    else
      let bCheckForReferences := true in
      del <- callDeleteSingleObject InObjectToDelete bCheckForReferences ;;
      if del : bool then
        OutPackage <- query (fun s => GetOutermost s InObjectToDelete) ;;
        onDisk <- query (fun s =>
                    IsValidPackage s OutPackage
                    && DoesPackageExist s OutPackage) ;;
        if negb onDisk then ret (true, OutPackage, true)
        else ret (true, OutPackage, false)
      else ret (false, nullptr, false).

(** The body of the [while] loop after [Pop]. *)
Definition LoopBody (ObjectToDelete : UObject) (L : Locals)
  : Host Locals :=
  if bool_decide (ObjectToDelete ∈ ProcessedObjects L) then ret L
  else
    let L1 :=
      {| InObjectsToDelete := InObjectsToDelete L;
         OutObjectsNotDeleted := OutObjectsNotDeleted L;
         NumDeleted := NumDeleted L;
         bGarbageCollectionRequired := bGarbageCollectionRequired L;
         PackagesToCleanUp := PackagesToCleanUp L;
         ProcessedObjects := {[ObjectToDelete]} ∪ ProcessedObjects L |} in
    valid <- query (fun s => IsValid s ObjectToDelete) ;;
    if negb valid
    then mark (EvVisit ObjectToDelete SkippedInvalid) ;;; ret L1
    else
      r <- SafeDeleteSingleObject ObjectToDelete ;;
      let '(bDeleted, Package, bInMemoryPackageOnly) := r in
      if bDeleted : bool then
        mark (EvVisit ObjectToDelete
                (Deleted Package bInMemoryPackageOnly)) ;;;
        ret {| InObjectsToDelete := InObjectsToDelete L1;
               OutObjectsNotDeleted := OutObjectsNotDeleted L1;
               NumDeleted := int32_wrap (NumDeleted L1 + 1);
               bGarbageCollectionRequired :=
                 if bInMemoryPackageOnly : bool
                 then (if negb (bGarbageCollectionRequired L1)
                       then true
                       else bGarbageCollectionRequired L1)
                 else bGarbageCollectionRequired L1;
               PackagesToCleanUp :=
                 if bInMemoryPackageOnly : bool
                 then PackagesToCleanUp L1
                 else TSetAdd Package (PackagesToCleanUp L1);
               ProcessedObjects := ProcessedObjects L1 |}
      else
        mark (EvVisit ObjectToDelete NotDeleted) ;;;
        ret {| InObjectsToDelete := InObjectsToDelete L1;
               OutObjectsNotDeleted :=
                 match OutObjectsNotDeleted L1 with
                 | Some out => Some (out ++ [ObjectToDelete])
                 | None => None
                 end;
               NumDeleted := NumDeleted L1;
               bGarbageCollectionRequired :=
                 bGarbageCollectionRequired L1;
               PackagesToCleanUp := PackagesToCleanUp L1;
               ProcessedObjects := ProcessedObjects L1 |}.

Definition SetInObjectsToDelete (arr : list UObject) (L : Locals)
  : Locals :=
  {| InObjectsToDelete := arr;
     OutObjectsNotDeleted := OutObjectsNotDeleted L;
     NumDeleted := NumDeleted L;
     bGarbageCollectionRequired := bGarbageCollectionRequired L;
     PackagesToCleanUp := PackagesToCleanUp L;
     ProcessedObjects := ProcessedObjects L |}.

(** [while (InObjectsToDelete.Num() > 0)]: each pass pops one element,
    so [fuel] passes are enough for an array of [fuel] elements. *)
Fixpoint SafeDeleteLoop (fuel : nat) (L : Locals) : Host Locals :=
  match fuel with
  | O => ret L
  | S fuel' =>
      match Pop (InObjectsToDelete L) with
      | None => ret L
      | Some (ObjectToDelete, rest) =>
          L' <- LoopBody ObjectToDelete (SetInObjectsToDelete rest L) ;;
          SafeDeleteLoop fuel' L'
      end
  end.

(** The two calls after the loop. *)
Definition FinalCleanup (L : Locals) : Host unit :=
  (if bGarbageCollectionRequired L
      && (length (PackagesToCleanUp L) <=? 0)%nat
   then callCollectGarbage
   else ret tt) ;;;
  (if (0 <? length (PackagesToCleanUp L))%nat
   then callCleanupAfterSuccessfulDelete (PackagesToCleanUp L)
   else ret tt).

(** Returns [NumDeleted] with the final contents of the two arrays. *)
Definition SafeDeleteObjects (InObjects : list UObject)
    (OutNotDeleted : option (list UObject))
  : Host (Z * list UObject * option (list UObject)) :=
  let L0 :=
    {| InObjectsToDelete := InObjects;
       OutObjectsNotDeleted := OutNotDeleted;
       NumDeleted := 0;
       bGarbageCollectionRequired := false;
       PackagesToCleanUp := [];
       ProcessedObjects := ∅ |} in
  L <- SafeDeleteLoop (length InObjects) L0 ;;
  FinalCleanup L ;;;
  ret (NumDeleted L, InObjectsToDelete L, OutObjectsNotDeleted L).

(** *** Reading a trace *)

Definition visits (tr : list Event) : list (UObject * Outcome) :=
  omap (fun e => match e with
                 | EvVisit o r => Some (o, r)
                 | _ => None
                 end) tr.

(** The objects handed to the host's [DeleteSingleObject]. *)
Definition attempts (tr : list Event) : list UObject :=
  omap (fun e => match e with
                 | EvDeleteSingleObject o _ _ => Some o
                 | _ => None
                 end) tr.

(** The objects the host's [DeleteSingleObject] reported deleted. *)
Definition deleted (tr : list Event) : list UObject :=
  omap (fun e => match e with
                 | EvDeleteSingleObject o _ true => Some o
                 | _ => None
                 end) tr.

(** Garbage collection and package cleanup. *)
Definition IsCollection (e : Event) : bool :=
  match e with
  | EvCollectGarbage | EvCleanupAfterSuccessfulDelete _ => true
  | _ => false
  end.

Definition run {A : Type} (m : Host A) (s : HostState) : A * HostState * list Event :=
  m s.
Definition result {A : Type} (x : A * HostState * list Event) : A := x.1.1.
Definition final {A : Type} (x : A * HostState * list Event) : HostState := x.1.2.
Definition trace {A : Type} (x : A * HostState * list Event) : list Event := x.2.

(** *** [SafeDeleteSingleObject] *)

Lemma SafeDeleteSingleObject_invalid o s :
  IsValid s o = false ->
  SafeDeleteSingleObject o s = ((false, nullptr, false), s, []).
Proof.
  intros Hv. unfold SafeDeleteSingleObject, bind, query, ret.
  rewrite Hv. reflexivity.
Qed.

(** C1.  When the reference-gathering step reports the object as still
    referenced, [SafeDeleteSingleObject] returns [false], hands nothing
    to the host's [DeleteSingleObject], and the only host call it made
    is the gathering itself (none at all for an object that is not
    valid, which never reaches that step). *)
Theorem SafeDeleteSingleObject_refuses_referenced o s ok bUndo s1 :
  GatherObjectReferencersForDeletion s o = (ok, true, bUndo, s1) ->
  result (SafeDeleteSingleObject o s) = (false, nullptr, false)
  /\ attempts (trace (SafeDeleteSingleObject o s)) = []
  /\ trace (SafeDeleteSingleObject o s)
     = (if IsValid s o
        then [EvGatherObjectReferencersForDeletion o ok true bUndo]
        else [])
  /\ final (SafeDeleteSingleObject o s) = (if IsValid s o then s1 else s).
Proof.
  intros Hg.
  unfold SafeDeleteSingleObject, bind, query, ret, callGather,
    result, trace, final.
  destruct (IsValid s o); cbn; [| done].
  rewrite Hg. destruct ok; cbn; done.
Qed.

(** The shapes a call of [SafeDeleteSingleObject] can take. *)
Lemma SafeDeleteSingleObject_cases o s :
  exists r s' tr,
    SafeDeleteSingleObject o s = (r, s', tr)
    /\ visits tr = []
    /\ Forall (fun e => IsCollection e = false) tr
    /\ (attempts tr = [] \/ attempts tr = [o])
    /\ deleted tr = (if r.1.1 then [o] else []).
Proof.
  unfold SafeDeleteSingleObject, bind, query, ret, callGather,
    callDeleteSingleObject.
  destruct (IsValid s o); cbn.
  2: { do 3 eexists. split; [reflexivity |]. cbn. auto. }
  destruct (GatherObjectReferencersForDeletion s o)
    as [[[ok bRef] bUndo] s1].
  destruct ok; cbn.
  2: { do 3 eexists. split; [reflexivity |]. cbn. auto 6. }
  destruct bRef; cbn.
  1: { do 3 eexists. split; [reflexivity |]. cbn. auto 6. }
  destruct (DeleteSingleObject s1 o true) as [del s2].
  destruct del; cbn.
  2: { do 3 eexists. split; [reflexivity |]. cbn. auto 6. }
  destruct (IsValidPackage s2 (GetOutermost s2 o)
            && DoesPackageExist s2 (GetOutermost s2 o)); cbn;
    do 3 eexists; (split; [reflexivity |]); cbn; auto 6.
Qed.

(** *** One pass of the loop *)

(** The effect of one pass over a new object on the local variables,
    by outcome. *)
Definition Step (o : UObject) (r : Outcome) (L : Locals) : Locals :=
  {| InObjectsToDelete := InObjectsToDelete L;
     OutObjectsNotDeleted :=
       match r with
       | NotDeleted => (fun out => out ++ [o]) <$> OutObjectsNotDeleted L
       | _ => OutObjectsNotDeleted L
       end;
     NumDeleted :=
       match r with
       | Deleted _ _ => int32_wrap (NumDeleted L + 1)
       | _ => NumDeleted L
       end;
     bGarbageCollectionRequired :=
       match r with
       | Deleted _ true => true
       | _ => bGarbageCollectionRequired L
       end;
     PackagesToCleanUp :=
       match r with
       | Deleted p false => TSetAdd p (PackagesToCleanUp L)
       | _ => PackagesToCleanUp L
       end;
     ProcessedObjects := {[o]} ∪ ProcessedObjects L |}.

Definition IsDeleted (r : Outcome) : bool :=
  match r with Deleted _ _ => true | _ => false end.

Lemma LoopBody_seen o L s :
  o ∈ ProcessedObjects L -> LoopBody o L s = (L, s, []).
Proof.
  intros Hin. unfold LoopBody. rewrite bool_decide_eq_true_2 by done.
  reflexivity.
Qed.

Lemma LoopBody_new o L s :
  o ∉ ProcessedObjects L ->
  exists r s' htr,
    LoopBody o L s = (Step o r L, s', htr ++ [EvVisit o r])
    /\ visits htr = []
    /\ Forall (fun e => IsCollection e = false) htr
    /\ (attempts htr = [] \/ attempts htr = [o])
    /\ deleted htr = (if IsDeleted r then [o] else [])
    /\ (r = SkippedInvalid <-> IsValid s o = false).
Proof.
  intros Hnew. unfold LoopBody. rewrite bool_decide_eq_false_2 by done.
  unfold bind at 1. unfold query at 1.
  destruct (IsValid s o) eqn:Hv; cbn [negb].
  2: { exists SkippedInvalid, s, []. cbn. repeat split; auto. }
  destruct (SafeDeleteSingleObject_cases o s)
    as ([[bDel pkg] inMem] & s' & tr & Heq & Hvis & Hcol & Hatt & Hdel).
  unfold bind. rewrite Heq. cbn in Hdel.
  destruct bDel; cbn.
  - exists (Deleted pkg inMem), s', tr. rewrite ?app_nil_r.
    split.
    { unfold Step; cbn. do 2 f_equal;
        by destruct inMem, (bGarbageCollectionRequired L). }
    repeat split; auto; discriminate.
  - exists NotDeleted, s', tr. rewrite ?app_nil_r.
    split.
    { unfold Step; cbn. do 2 f_equal;
        by destruct (OutObjectsNotDeleted L). }
    repeat split; auto; discriminate.
Qed.

(** *** The whole loop *)

(** The objects of [l] that get past the [ProcessedObjects] test when
    [l] is traversed front to back starting from [seen]. *)
Fixpoint fresh_seq (seen : gset UObject) (l : list UObject)
  : list UObject :=
  match l with
  | [] => []
  | x :: r =>
      if bool_decide (x ∈ seen) then fresh_seq seen r
      else x :: fresh_seq ({[x]} ∪ seen) r
  end.

Definition Steps (vs : list (UObject * Outcome)) (L : Locals) : Locals :=
  fold_left (fun L v => Step v.1 v.2 L) vs L.

(** The objects whose visit ended in the given kind of outcome. *)
Definition visited_with (P : Outcome -> bool)
    (vs : list (UObject * Outcome)) : list UObject :=
  omap (fun v => if P v.2 then Some v.1 else None) vs.

Lemma Pop_None {A} (arr : list A) : Pop arr = None -> arr = [].
Proof.
  unfold Pop. destruct (rev arr) eqn:Hr; [| discriminate].
  intros _. by rewrite <- (rev_involutive arr), Hr.
Qed.

Lemma Pop_Some {A} (arr : list A) x rest :
  Pop arr = Some (x, rest) -> arr = rest ++ [x].
Proof.
  unfold Pop. destruct (rev arr) eqn:Hr; [discriminate |].
  intros [= <- <-]. by rewrite <- (rev_involutive arr), Hr.
Qed.

Lemma Step_SetInObjectsToDelete a o r L :
  Step o r (SetInObjectsToDelete a L)
  = SetInObjectsToDelete a (Step o r L).
Proof. reflexivity. Qed.

Lemma Steps_SetInObjectsToDelete a vs L :
  Steps vs (SetInObjectsToDelete a L)
  = SetInObjectsToDelete a (Steps vs L).
Proof.
  revert L. induction vs as [| v vs IH]; intros L; [reflexivity |].
  cbn. rewrite Step_SetInObjectsToDelete. apply IH.
Qed.

Lemma visits_app t1 t2 : visits (t1 ++ t2) = visits t1 ++ visits t2.
Proof. apply omap_app. Qed.
Lemma attempts_app t1 t2 : attempts (t1 ++ t2) = attempts t1 ++ attempts t2.
Proof. apply omap_app. Qed.
Lemma deleted_app t1 t2 : deleted (t1 ++ t2) = deleted t1 ++ deleted t2.
Proof. apply omap_app. Qed.

Lemma SafeDeleteLoop_spec fuel :
  forall L s,
    length (InObjectsToDelete L) <= fuel ->
    exists L' s' tr,
      SafeDeleteLoop fuel L s = (L', s', tr)
      /\ L' = SetInObjectsToDelete [] (Steps (visits tr) L)
      /\ (visits tr).*1
         = fresh_seq (ProcessedObjects L) (rev (InObjectsToDelete L))
      /\ Forall (fun e => IsCollection e = false) tr
      /\ attempts tr `sublist_of` (visits tr).*1
      /\ deleted tr = visited_with IsDeleted (visits tr).
Proof.
  induction fuel as [| fuel IH]; intros L s Hlen.
  - destruct L as [arr out n gc pk pr]; cbn in *.
    destruct arr; [| cbn in Hlen; lia].
    exists (Build_Locals [] out n gc pk pr), s, [].
    cbn. repeat split; auto; constructor.
  - cbn [SafeDeleteLoop].
    destruct (Pop (InObjectsToDelete L)) as [[x rest] |] eqn:Hpop.
    2: { apply Pop_None in Hpop. destruct L as [arr out n gc pk pr].
         cbn in Hpop; subst arr.
         exists (Build_Locals [] out n gc pk pr), s, [].
         cbn. repeat split; auto; constructor. }
    apply Pop_Some in Hpop.
    assert (Hrev : rev (InObjectsToDelete L) = x :: rev rest).
    { rewrite Hpop, rev_app_distr. reflexivity. }
    assert (Hlen' : length rest <= fuel).
    { rewrite Hpop, length_app in Hlen. cbn in Hlen. lia. }
    rewrite Hrev. cbn [fresh_seq]. unfold bind.
    destruct (decide (x ∈ ProcessedObjects L)) as [Hin | Hnew].
    + rewrite LoopBody_seen by exact Hin.
      rewrite bool_decide_eq_true_2 by exact Hin.
      destruct (IH (SetInObjectsToDelete rest L) s Hlen')
        as (L' & s' & tr & Heq & HL & Hv & Hc & Ha & Hd).
      rewrite Heq. exists L', s', tr. cbn [app].
      rewrite Steps_SetInObjectsToDelete in HL.
      repeat split; auto.
    + rewrite bool_decide_eq_false_2 by exact Hnew.
      destruct (LoopBody_new x (SetInObjectsToDelete rest L) s Hnew)
        as (r & s1 & htr & Heq1 & Hv1 & Hc1 & Ha1 & Hd1 & _).
      rewrite Heq1.
      destruct (IH (Step x r (SetInObjectsToDelete rest L)) s1 Hlen')
        as (L' & s' & tr & Heq & HL & Hv & Hc & Ha & Hd).
      rewrite Heq. exists L', s', ((htr ++ [EvVisit x r]) ++ tr).
      rewrite !visits_app, !attempts_app, !deleted_app, Hv1, Hd1.
      cbn [visits attempts deleted omap app fmap list_fmap fst].
      split; [reflexivity |].
      split.
      { rewrite HL. cbn.
        rewrite Step_SetInObjectsToDelete, Steps_SetInObjectsToDelete.
        reflexivity. }
      split.
      { cbn in Hv. cbn. f_equal. exact Hv. }
      split.
      { rewrite !Forall_app. repeat split; auto. }
      split.
      { rewrite app_nil_r.
        destruct Ha1 as [-> | ->]; cbn.
        - by apply sublist_cons.
        - by apply sublist_skip. }
      unfold visited_with. cbn. rewrite Hd.
      destruct (IsDeleted r); reflexivity.
Qed.

Lemma fresh_seq_elem_of l : forall seen x,
  x ∈ fresh_seq seen l <-> x ∈ l /\ x ∉ seen.
Proof.
  induction l as [| y l IH]; intros seen x; cbn.
  - set_solver.
  - case_bool_decide as Hy.
    + rewrite IH. set_solver.
    + rewrite elem_of_cons, IH. destruct (decide (x = y)); set_solver.
Qed.

Lemma elem_of_rev (l : list UObject) x : x ∈ rev l <-> x ∈ l.
Proof. rewrite !list_elem_of_In. symmetry. apply in_rev. Qed.

Lemma fresh_seq_NoDup l : forall seen, NoDup (fresh_seq seen l).
Proof.
  induction l as [| y l IH]; intros seen; cbn; [constructor |].
  case_bool_decide; [apply IH |].
  constructor; [| apply IH].
  rewrite fresh_seq_elem_of. set_solver.
Qed.

Definition IsNotDeleted (r : Outcome) : bool :=
  match r with NotDeleted => true | _ => false end.

Definition IsInMemoryOnly (r : Outcome) : bool :=
  match r with Deleted _ true => true | _ => false end.

(** The packages of the deleted objects that exist on disk. *)
Definition on_disk_packages (vs : list (UObject * Outcome))
  : list UPackage :=
  omap (fun v => match v.2 with
                 | Deleted p false => Some p
                 | _ => None
                 end) vs.

Lemma Steps_OutObjectsNotDeleted vs : forall L,
  OutObjectsNotDeleted (Steps vs L)
  = (fun out => out ++ visited_with IsNotDeleted vs)
      <$> OutObjectsNotDeleted L.
Proof.
  induction vs as [| [o r] vs IH]; intros L; cbn.
  - destruct (OutObjectsNotDeleted L); cbn; by rewrite ?app_nil_r.
  - unfold Steps in IH. rewrite IH. unfold visited_with; cbn.
    destruct r, (OutObjectsNotDeleted L); cbn; try reflexivity.
    by rewrite <- app_assoc.
Qed.

Lemma Steps_bGarbageCollectionRequired vs : forall L,
  bGarbageCollectionRequired (Steps vs L)
  = bGarbageCollectionRequired L
    || existsb (fun v => IsInMemoryOnly v.2) vs.
Proof.
  induction vs as [| [o r] vs IH]; intros L; cbn.
  - by rewrite orb_false_r.
  - unfold Steps in IH. rewrite IH. cbn.
    destruct r as [| | p []]; cbn; try reflexivity.
    by rewrite orb_true_r.
Qed.

Lemma Steps_PackagesToCleanUp vs : forall L,
  PackagesToCleanUp (Steps vs L)
  = TSetAddAll (PackagesToCleanUp L) (on_disk_packages vs).
Proof.
  induction vs as [| [o r] vs IH]; intros L; cbn; [reflexivity |].
  unfold Steps in IH. rewrite IH. unfold on_disk_packages; cbn.
  by destruct r as [| | p []].
Qed.

Lemma TSetAdd_length x S : length S <= length (TSetAdd x S).
Proof.
  unfold TSetAdd. case_bool_decide; [lia |]. rewrite length_app. lia.
Qed.

Lemma TSetAddAll_length l : forall S, length S <= length (TSetAddAll S l).
Proof.
  induction l as [| x l IH]; intros S; cbn; [lia |].
  etransitivity; [apply (TSetAdd_length x) | apply IH].
Qed.

Lemma Steps_NumDeleted vs : forall L,
  int32_wrap (NumDeleted (Steps vs L))
  = int32_wrap (NumDeleted L
                + Z.of_nat (length (visited_with IsDeleted vs))).
Proof.
  induction vs as [| [o r] vs IH]; intros L; cbn.
  - f_equal. lia.
  - unfold Steps in IH. rewrite IH. unfold visited_with; cbn.
    destruct r; cbn; try reflexivity.
    rewrite int32_wrap_add_l. f_equal. lia.
Qed.

Lemma Steps_NumDeleted_wrapped vs : forall L,
  NumDeleted L = int32_wrap (NumDeleted L) ->
  NumDeleted (Steps vs L) = int32_wrap (NumDeleted (Steps vs L)).
Proof.
  induction vs as [| [o r] vs IH]; intros L HL; cbn; [exact HL |].
  apply IH. destruct r; cbn; try exact HL.
  rewrite <- (Z.add_0_r (int32_wrap (NumDeleted L + 1))) at 2.
  rewrite int32_wrap_add_l. f_equal. lia.
Qed.

(** *** [SafeDeleteObjects] as a whole *)

(** The calls after the loop, read off the visits of the loop. *)
Definition FinalCalls (vs : list (UObject * Outcome)) : list Event :=
  match on_disk_packages vs with
  | [] =>
      if existsb (fun v => IsInMemoryOnly v.2) vs
      then [EvCollectGarbage]
      else []
  | _ :: _ =>
      [EvCleanupAfterSuccessfulDelete
         (TSetAddAll [] (on_disk_packages vs))]
  end.

Lemma FinalCleanup_trace L s vs :
  bGarbageCollectionRequired L = existsb (fun v => IsInMemoryOnly v.2) vs ->
  PackagesToCleanUp L = TSetAddAll [] (on_disk_packages vs) ->
  trace (FinalCleanup L s) = FinalCalls vs.
Proof.
  intros Hgc Hpk.
  unfold FinalCleanup, FinalCalls, trace, bind. rewrite Hgc, Hpk.
  destruct (on_disk_packages vs) as [| p l] eqn:Hodp.
  - cbn. destruct (existsb _ vs); reflexivity.
  - pose proof (TSetAddAll_length l (TSetAdd p [])) as Hpos.
    change (TSetAddAll (TSetAdd p []) l) with (TSetAddAll [] (p :: l))
      in Hpos.
    unfold TSetAdd in Hpos at 1.
    rewrite bool_decide_eq_false_2 in Hpos by apply not_elem_of_nil.
    destruct (TSetAddAll [] (p :: l)) as [| q qs]; [cbn in Hpos; lia |].
    cbn. rewrite andb_false_r. reflexivity.
Qed.

Lemma SafeDeleteObjects_run arr out s :
  exists s' trLoop,
    let vs := visits trLoop in
    SafeDeleteObjects arr out s
    = ((int32_wrap (Z.of_nat (length (visited_with IsDeleted vs))),
        [],
        (fun l => l ++ visited_with IsNotDeleted vs) <$> out),
       s', trLoop ++ FinalCalls vs)
    /\ vs.*1 = fresh_seq ∅ (rev arr)
    /\ Forall (fun e => IsCollection e = false) trLoop
    /\ attempts trLoop `sublist_of` vs.*1
    /\ deleted trLoop = visited_with IsDeleted vs.
Proof.
  unfold SafeDeleteObjects.
  set (L0 := Build_Locals arr out 0 false [] ∅).
  destruct (SafeDeleteLoop_spec (length arr) L0 s (Nat.le_refl _))
    as (L' & s1 & tr & Heq & HL & Hv & Hc & Ha & Hd).
  unfold bind at 1. rewrite Heq.
  assert (Hgc : bGarbageCollectionRequired L'
                = existsb (fun v => IsInMemoryOnly v.2) (visits tr)).
  { rewrite HL. cbn. by rewrite Steps_bGarbageCollectionRequired. }
  assert (Hpk : PackagesToCleanUp L'
                = TSetAddAll [] (on_disk_packages (visits tr))).
  { rewrite HL. cbn. by rewrite Steps_PackagesToCleanUp. }
  assert (Hn : NumDeleted L'
               = int32_wrap (Z.of_nat
                   (length (visited_with IsDeleted (visits tr))))).
  { rewrite HL. cbn.
    rewrite (Steps_NumDeleted_wrapped (visits tr) L0) by reflexivity.
    by rewrite Steps_NumDeleted. }
  assert (Ho : OutObjectsNotDeleted L'
               = (fun l => l ++ visited_with IsNotDeleted (visits tr))
                   <$> out).
  { rewrite HL. cbn. by rewrite Steps_OutObjectsNotDeleted. }
  assert (Hi : InObjectsToDelete L' = []) by (by rewrite HL).
  pose proof (FinalCleanup_trace L' s1 (visits tr) Hgc Hpk) as Hfin.
  unfold bind, ret.
  destruct (FinalCleanup L' s1) as [[[] s2] trEnd]. cbn in Hfin. subst trEnd.
  exists s2, tr. cbn zeta. rewrite Hn, Ho, Hi, app_nil_r.
  repeat split; auto.
Qed.

Lemma FinalCalls_quiet vs :
  visits (FinalCalls vs) = []
  /\ attempts (FinalCalls vs) = []
  /\ deleted (FinalCalls vs) = []
  /\ length (FinalCalls vs) <= 1.
Proof.
  unfold FinalCalls.
  destruct (on_disk_packages vs); [destruct (existsb _ vs) |];
    cbn; repeat split; lia.
Qed.

Lemma existsb_IsInMemoryOnly (vs : list (UObject * Outcome)) :
  existsb (fun v => IsInMemoryOnly v.2) vs = true
  <-> exists o p, (o, Deleted p true) ∈ vs.
Proof.
  rewrite existsb_exists. split.
  - intros ([o r] & Hin & Hr). apply list_elem_of_In in Hin.
    destruct r as [| | p []]; try discriminate. by exists o, p.
  - intros (o & p & Hin). exists (o, Deleted p true).
    split; [by apply list_elem_of_In | reflexivity].
Qed.

Lemma elem_of_on_disk_packages (vs : list (UObject * Outcome)) p :
  p ∈ on_disk_packages vs <-> exists o, (o, Deleted p false) ∈ vs.
Proof.
  unfold on_disk_packages. rewrite list_elem_of_omap. split.
  - intros ([o r] & Hin & Hr). cbn in Hr.
    destruct r as [| | q []]; try discriminate.
    injection Hr as ->. by exists o.
  - intros (o & Hin). by exists (o, Deleted p false).
Qed.

Lemma on_disk_packages_nil (vs : list (UObject * Outcome)) :
  on_disk_packages vs = [] <-> ~ exists o p, (o, Deleted p false) ∈ vs.
Proof.
  split.
  - intros Hnil (o & p & Hin).
    assert (Hp : p ∈ on_disk_packages vs)
      by (apply elem_of_on_disk_packages; eauto).
    rewrite Hnil in Hp. by apply elem_of_nil in Hp.
  - intros Hno. destruct (on_disk_packages vs) as [| p l] eqn:Hodp;
      [reflexivity |].
    exfalso. apply Hno.
    destruct (proj1 (elem_of_on_disk_packages vs p)) as [o Ho].
    + rewrite Hodp. left.
    + by exists o, p.
Qed.


Lemma visited_with_length P vs :
  length (visited_with P vs) <= length vs.
Proof.
  unfold visited_with.
  induction vs as [| [o r] vs IH]; cbn; [lia |].
  destruct (P r); cbn; lia.
Qed.

(** C2.  The trace of [SafeDeleteObjects] splits into the calls of the
    loop and the calls after it.  The loop part holds a visit of every
    object of the batch and neither [CollectGarbage] nor
    [CleanupAfterSuccessfulDelete]; the part after it is at most one
    call: [CollectGarbage] exactly when some deleted object's package
    was in-memory only and no deleted object's package is on disk,
    one [CleanupAfterSuccessfulDelete] over all on-disk packages, in
    the order they were added to [PackagesToCleanUp], exactly when
    there is one. *)
Theorem SafeDeleteObjects_single_collection arr out s :
  exists trLoop trEnd,
    let vs := visits trLoop in
    trace (SafeDeleteObjects arr out s) = trLoop ++ trEnd
    /\ Forall (fun e => IsCollection e = false) trLoop
    /\ (forall o, o ∈ arr -> o ∈ vs.*1)
    /\ visits trEnd = []
    /\ length trEnd <= 1
    /\ Forall (fun e => IsCollection e = true) trEnd
    /\ (In EvCollectGarbage trEnd
        <-> (exists o p, (o, Deleted p true) ∈ vs)
            /\ ~ (exists o p, (o, Deleted p false) ∈ vs))
    /\ (forall pkgs,
          In (EvCleanupAfterSuccessfulDelete pkgs) trEnd
          <-> (exists o p, (o, Deleted p false) ∈ vs)
              /\ pkgs = TSetAddAll [] (on_disk_packages vs)).
Proof.
  destruct (SafeDeleteObjects_run arr out s)
    as (s' & trLoop & Heq & Hv & Hc & _).
  cbn zeta in Heq, Hv.
  exists trLoop, (FinalCalls (visits trLoop)). cbn zeta.
  rewrite Heq.
  destruct (FinalCalls_quiet (visits trLoop)) as (Hq1 & _ & _ & Hq4).
  split; [reflexivity |]. split; [exact Hc |].
  split.
  { intros o Ho. rewrite Hv, fresh_seq_elem_of, elem_of_rev.
    split; [exact Ho | set_solver]. }
  split; [exact Hq1 |]. split; [exact Hq4 |].
  pose proof (existsb_IsInMemoryOnly (visits trLoop)) as Hmem.
  pose proof (on_disk_packages_nil (visits trLoop)) as Hnil.
  unfold FinalCalls.
  destruct (on_disk_packages (visits trLoop)) as [| p l] eqn:Hodp.
  - assert (Hno : ~ exists o p, (o, Deleted p false) ∈ visits trLoop)
      by (by apply Hnil).
    destruct (existsb _ (visits trLoop)) eqn:Hex.
    + split; [repeat constructor |]. split.
      * split; [intros _ | intros _; by left].
        split; [by apply Hmem | exact Hno].
      * intros pkgs. split; [intros [H | []]; discriminate H |].
        intros [Hyes _]. contradiction.
    + split; [constructor |]. split.
      * split; [intros [] |]. intros [Hyes _].
        apply Hmem in Hyes. discriminate Hyes.
      * intros pkgs. split; [intros [] |].
        intros [Hyes _]. contradiction.
  - assert (Hyes : exists o q, (o, Deleted q false) ∈ visits trLoop).
    { destruct (proj1 (elem_of_on_disk_packages (visits trLoop) p))
        as [o Ho]; [rewrite Hodp; left | by exists o, p]. }
    split; [repeat constructor |]. split.
    + split; [intros [H | []]; discriminate H |].
      intros [_ Hno]. contradiction.
    + intros pkgs. split.
      * intros [H | []]. injection H as <-. by split.
      * intros [_ ->]. by left.
Qed.

(** The cleanup list holds each package once, in the order of the first
    deletion from it. *)
Lemma TSetAddAll_fresh_seq l : forall S,
  TSetAddAll S l = S ++ fresh_seq (list_to_set S) l.
Proof.
  induction l as [| x l IH]; intros S; cbn; [by rewrite app_nil_r |].
  fold (TSetAddAll (TSetAdd x S) l). rewrite IH. unfold TSetAdd.
  destruct (decide (x ∈ S)) as [Hin | Hnew].
  - rewrite !bool_decide_eq_true_2; [reflexivity | set_solver | exact Hin].
  - rewrite (bool_decide_eq_false_2 (x ∈ S)) by exact Hnew.
    rewrite (bool_decide_eq_false_2 (x ∈ list_to_set S)) by set_solver.
    rewrite <- app_assoc. cbn. do 3 f_equal. set_solver.
Qed.


Lemma NoDup_length_le_size (l arr : list UObject) :
  NoDup l -> (forall x, x ∈ l -> x ∈ arr) ->
  length l <= size (list_to_set arr : gset UObject).
Proof.
  intros Hnd Hsub.
  change (size (list_to_set arr : gset UObject))
    with (length (elements (list_to_set arr : gset UObject))).
  apply submseteq_length, NoDup_submseteq; [exact Hnd |].
  intros x Hx. apply elem_of_elements, elem_of_list_to_set, Hsub, Hx.
Qed.

(** C9.  No object is handed to the host's [DeleteSingleObject] twice
    and no object is visited twice, however often it occurs in the
    input array; the returned count is at most the number of distinct
    objects of the input; the input array is empty on return. *)
Theorem SafeDeleteObjects_once_per_object arr out s :
  let r := SafeDeleteObjects arr out s in
  NoDup (attempts (trace r))
  /\ NoDup (visits (trace r)).*1
  /\ (forall o, o ∈ attempts (trace r) -> o ∈ arr)
  /\ length (attempts (trace r)) <= size (list_to_set arr : gset UObject)
  /\ ((result r).1.1 <= Z.of_nat (size (list_to_set arr : gset UObject)))%Z
  /\ (result r).1.2 = [].
Proof.
  cbn zeta.
  destruct (SafeDeleteObjects_run arr out s)
    as (s' & trLoop & Heq & Hv & Hc & Ha & Hd).
  cbn zeta in Heq, Hv, Ha, Hd. rewrite Heq. unfold trace, result; cbn.
  destruct (FinalCalls_quiet (visits trLoop)) as (Hq1 & Hq2 & _ & _).
  rewrite attempts_app, visits_app, Hq1, Hq2, !app_nil_r.
  assert (Hnd : NoDup (visits trLoop).*1).
  { rewrite Hv. apply fresh_seq_NoDup. }
  assert (Hin : forall o, o ∈ (visits trLoop).*1 -> o ∈ arr).
  { intros o. rewrite Hv, fresh_seq_elem_of, elem_of_rev. tauto. }
  assert (Hnda : NoDup (attempts trLoop)).
  { eapply sublist_NoDup; eassumption. }
  assert (Hina : forall o, o ∈ attempts trLoop -> o ∈ arr).
  { intros o Ho. apply Hin. eapply sublist_subseteq; eassumption. }
  repeat split; auto.
  - by apply NoDup_length_le_size.
  - pose proof (NoDup_length_le_size _ arr Hnd Hin) as Hle.
    rewrite length_fmap in Hle.
    pose proof (visited_with_length IsDeleted (visits trLoop)) as Hle'.
    etransitivity; [apply int32_wrap_le; lia | lia].
Qed.





(** *** Further properties of the deletion helpers *)

(** [SafeDeleteSingleObject] deletes exactly when the object is valid,
    the reference gathering succeeds and reports no reference, and the
    host's [DeleteSingleObject] (always called with reference checking
    on) succeeds.  It then returns the object's outermost package, read
    after the deletion, flagged in-memory-only unless that package is
    valid and exists on disk.  In every other case it returns
    [(false, nullptr, false)], and nothing was deleted. *)
Theorem SafeDeleteSingleObject_outputs o s :
  let r := SafeDeleteSingleObject o s in
  ((result r).1.1 = true
   <-> exists u s1 s2,
         IsValid s o = true
         /\ GatherObjectReferencersForDeletion s o = (true, false, u, s1)
         /\ DeleteSingleObject s1 o true = (true, s2))
  /\ (forall u s1 s2,
        IsValid s o = true ->
        GatherObjectReferencersForDeletion s o = (true, false, u, s1) ->
        DeleteSingleObject s1 o true = (true, s2) ->
        r = ((true, GetOutermost s2 o,
              negb (IsValidPackage s2 (GetOutermost s2 o)
                    && DoesPackageExist s2 (GetOutermost s2 o))),
             s2,
             [EvGatherObjectReferencersForDeletion o true false u;
              EvDeleteSingleObject o true true]))
  /\ ((result r).1.1 = false ->
      result r = (false, nullptr, false) /\ deleted (trace r) = [])
  /\ (forall o' b ok,
        In (EvDeleteSingleObject o' b ok) (trace r) -> o' = o /\ b = true).
Proof.
  cbn zeta.
  unfold SafeDeleteSingleObject, bind, query, ret, callGather,
    callDeleteSingleObject, result, trace.
  destruct (IsValid s o) eqn:Hv; cbn.
  2: { split; [split; [discriminate | by intros (? & ? & ? & [=] & _)] |].
       split; [discriminate |]. split; [done |]. by intros ? ? ? []. }
  destruct (GatherObjectReferencersForDeletion s o)
    as [[[ok bRef] bUndo] s1] eqn:Hg.
  destruct ok; cbn.
  2: { split; [split; [discriminate | by intros (? & ? & ? & _ & [=] & _)] |].
       split; [discriminate |]. split; [done |].
       intros ? ? ? [[=] | []]. }
  destruct bRef; cbn.
  1: { split; [split; [discriminate | by intros (? & ? & ? & _ & [=] & _)] |].
       split; [discriminate |]. split; [done |].
       intros ? ? ? [[=] | []]. }
  destruct (DeleteSingleObject s1 o true) as [del s2] eqn:Hd.
  destruct del; cbn.
  2: { split.
       { split; [discriminate |].
         intros (u & s1' & s2' & _ & [= <- <-] & Hd').
         rewrite Hd in Hd'. discriminate Hd'. }
       split.
       { intros u s1' s2' _ [= <- <-] Hd'. rewrite Hd in Hd'.
         discriminate Hd'. }
       split; [done |].
       intros ? ? ? [[=] | [[= <- <- _] | []]]. done. }
  assert (Hres : forall b : bool,
            (if negb b then ret (true, GetOutermost s2 o, true)
             else ret (true, GetOutermost s2 o, false)) s2
            = ((true, GetOutermost s2 o, negb b), s2, [])).
  { by intros []. }
  unfold ret in Hres. rewrite Hres. cbn.
  split; [split; [intros _; by exists bUndo, s1, s2 | done] |].
  split.
  { intros u s1' s2' _ [= <- <-] Hd'. rewrite Hd in Hd'.
    injection Hd' as <-. reflexivity. }
  split; [discriminate |].
  intros ? ? ? [[=] | [[= <- <- _] | []]]. done.
Qed.

(** Every call of the host's [DeleteSingleObject] checks references and
    comes straight after a successful gathering, for the same object,
    that found no reference. *)
Definition DeleteGuarded (tr : list Event) : Prop :=
  forall i o b ok,
    tr !! i = Some (EvDeleteSingleObject o b ok) ->
    b = true
    /\ exists j u,
         i = S j
         /\ tr !! j = Some (EvGatherObjectReferencersForDeletion o true false u).

Lemma DeleteGuarded_nil : DeleteGuarded [].
Proof. intros i o b ok Hi. by rewrite lookup_nil in Hi. Qed.

Lemma DeleteGuarded_app t1 t2 :
  DeleteGuarded t1 -> DeleteGuarded t2 -> DeleteGuarded (t1 ++ t2).
Proof.
  intros H1 H2 i o b ok Hi.
  apply lookup_app_Some in Hi as [Hi | [Hlen Hi]].
  - destruct (H1 _ _ _ _ Hi) as (Hb & j & u & -> & Hj).
    split; [exact Hb |]. exists j, u. split; [reflexivity |].
    by apply lookup_app_l_Some.
  - destruct (H2 _ _ _ _ Hi) as (Hb & j & u & Hij & Hj).
    split; [exact Hb |]. exists (length t1 + j)%nat, u.
    split; [lia |].
    rewrite lookup_app_r by lia.
    by replace (length t1 + j - length t1)%nat with j by lia.
Qed.

Lemma DeleteGuarded_quiet tr : attempts tr = [] -> DeleteGuarded tr.
Proof.
  intros Hq i o b ok Hi.
  assert (Hin : o ∈ attempts tr).
  { unfold attempts. apply list_elem_of_omap.
    exists (EvDeleteSingleObject o b ok).
    split; [by eapply list_elem_of_lookup_2 | reflexivity]. }
  rewrite Hq in Hin. by apply elem_of_nil in Hin.
Qed.

Lemma SafeDeleteSingleObject_guarded o s :
  DeleteGuarded (trace (SafeDeleteSingleObject o s)).
Proof.
  unfold SafeDeleteSingleObject, bind, query, ret, callGather,
    callDeleteSingleObject, trace.
  destruct (IsValid s o); cbn; [| apply DeleteGuarded_nil].
  destruct (GatherObjectReferencersForDeletion s o)
    as [[[ok bRef] bUndo] s1].
  destruct ok; cbn; [| by apply DeleteGuarded_quiet].
  destruct bRef; cbn; [by apply DeleteGuarded_quiet |].
  destruct (DeleteSingleObject s1 o true) as [del s2].
  assert (Hshape : DeleteGuarded
            [EvGatherObjectReferencersForDeletion o true false bUndo;
             EvDeleteSingleObject o true del]).
  { intros [| [| i]] o' b ok Hi; cbn in Hi; try discriminate Hi.
    injection Hi as <- <- <-. split; [reflexivity |].
    by exists 0%nat, bUndo. }
  destruct del; cbn.
  - destruct (negb _); cbn; exact Hshape.
  - exact Hshape.
Qed.

Lemma LoopBody_guarded o L s : DeleteGuarded (trace (LoopBody o L s)).
Proof.
  unfold LoopBody. case_bool_decide; [apply DeleteGuarded_nil |].
  unfold bind at 1. unfold query at 1.
  destruct (IsValid s o); cbn [negb].
  2: { by apply DeleteGuarded_quiet. }
  pose proof (SafeDeleteSingleObject_guarded o s) as Hg.
  unfold bind, trace in *.
  destruct (SafeDeleteSingleObject o s) as [[[[bDel pkg] inMem] s'] tr].
  cbn in Hg. destruct bDel; cbn;
    (apply DeleteGuarded_app; [exact Hg | by apply DeleteGuarded_quiet]).
Qed.

(** A property of traces that holds of the empty trace, of every pass of
    the loop, and of concatenations holds of the whole loop. *)
Lemma SafeDeleteLoop_trace_ind (Q : list Event -> Prop) :
  Q [] ->
  (forall t1 t2, Q t1 -> Q t2 -> Q (t1 ++ t2)) ->
  (forall o L s, Q (trace (LoopBody o L s))) ->
  forall fuel L s, Q (trace (SafeDeleteLoop fuel L s)).
Proof.
  intros Hnil Happ Hbody.
  induction fuel as [| fuel IH]; intros L s; cbn; [exact Hnil |].
  destruct (Pop (InObjectsToDelete L)) as [[x rest] |]; [| exact Hnil].
  unfold bind.
  pose proof (Hbody x (SetInObjectsToDelete rest L) s) as H1.
  destruct (LoopBody x (SetInObjectsToDelete rest L) s) as [[L1 s1] t1].
  pose proof (IH L1 s1) as H2.
  destruct (SafeDeleteLoop fuel L1 s1) as [[L2 s2] t2].
  cbn in *. by apply Happ.
Qed.

Lemma FinalCleanup_quiet L s :
  attempts (trace (FinalCleanup L s)) = []
  /\ visits (trace (FinalCleanup L s)) = [].
Proof.
  unfold FinalCleanup, bind, ret, callCollectGarbage,
    callCleanupAfterSuccessfulDelete, trace.
  by destruct (_ && _), (0 <? _)%nat.
Qed.

(** No object is deleted by [SafeDeleteObjects] without the check: each
    [DeleteSingleObject] call in its trace has reference checking on and
    directly follows a successful [GatherObjectReferencersForDeletion] of
    the same object that reported it unreferenced. *)
Theorem SafeDeleteObjects_guarded arr out s :
  DeleteGuarded (trace (SafeDeleteObjects arr out s)).
Proof.
  unfold SafeDeleteObjects.
  set (L0 := Build_Locals arr out 0 false [] ∅).
  pose proof (SafeDeleteLoop_trace_ind DeleteGuarded DeleteGuarded_nil
                DeleteGuarded_app LoopBody_guarded (length arr) L0 s) as Hl.
  unfold bind, ret, trace in *.
  destruct (SafeDeleteLoop (length arr) L0 s) as [[L1 s1] t1].
  pose proof (FinalCleanup_quiet L1 s1) as [Hq _]. unfold trace in Hq.
  destruct (FinalCleanup L1 s1) as [[[] s2] t2]. cbn in *.
  rewrite app_nil_r.
  apply DeleteGuarded_app; [exact Hl | by apply DeleteGuarded_quiet].
Qed.

Lemma LoopBody_invalid o L s :
  o ∉ ProcessedObjects L -> IsValid s o = false ->
  LoopBody o L s = (Step o SkippedInvalid L, s, [EvVisit o SkippedInvalid]).
Proof.
  intros Hnew Hv. unfold LoopBody. rewrite bool_decide_eq_false_2 by done.
  unfold bind, query, mark, ret. rewrite Hv. reflexivity.
Qed.

Lemma SafeDeleteLoop_nothing_valid fuel : forall L s,
  length (InObjectsToDelete L) <= fuel ->
  (forall o, o ∈ InObjectsToDelete L -> IsValid s o = false) ->
  exists L',
    SafeDeleteLoop fuel L s
    = (L', s,
       map (fun o => EvVisit o SkippedInvalid)
         (fresh_seq (ProcessedObjects L) (rev (InObjectsToDelete L))))
    /\ InObjectsToDelete L' = []
    /\ OutObjectsNotDeleted L' = OutObjectsNotDeleted L
    /\ NumDeleted L' = NumDeleted L
    /\ bGarbageCollectionRequired L' = bGarbageCollectionRequired L
    /\ PackagesToCleanUp L' = PackagesToCleanUp L.
Proof.
  induction fuel as [| fuel IH]; intros L s Hlen Hinv.
  - destruct (InObjectsToDelete L) eqn:Harr; [| cbn in Hlen; lia].
    exists L. cbn. by rewrite Harr.
  - cbn [SafeDeleteLoop].
    destruct (Pop (InObjectsToDelete L)) as [[x rest] |] eqn:Hpop.
    2: { apply Pop_None in Hpop. exists L. by rewrite Hpop. }
    apply Pop_Some in Hpop. rewrite Hpop, rev_app_distr. cbn [rev app fresh_seq].
    assert (Hlen' : length rest <= fuel).
    { rewrite Hpop, length_app in Hlen. cbn in Hlen. lia. }
    assert (Hx : IsValid s x = false).
    { apply Hinv. rewrite Hpop. set_solver. }
    assert (Hrest : forall o, o ∈ rest -> IsValid s o = false).
    { intros o Ho. apply Hinv. rewrite Hpop. set_solver. }
    unfold bind.
    destruct (decide (x ∈ ProcessedObjects L)) as [Hin | Hnew].
    + rewrite LoopBody_seen by exact Hin.
      rewrite bool_decide_eq_true_2 by exact Hin.
      destruct (IH (SetInObjectsToDelete rest L) s Hlen' Hrest)
        as (L' & Heq & H1 & H2 & H3 & H4 & H5).
      rewrite Heq. exists L'. cbn. auto 6.
    + rewrite LoopBody_invalid by done.
      rewrite bool_decide_eq_false_2 by exact Hnew.
      destruct (IH (Step x SkippedInvalid (SetInObjectsToDelete rest L)) s
                  Hlen' Hrest)
        as (L' & Heq & H1 & H2 & H3 & H4 & H5).
      rewrite Heq. exists L'. cbn. auto 6.
Qed.

(** A batch in which the host calls no object valid, an empty batch in
    particular, is passed over: the array is emptied, the count is 0, the
    output list and the host's state are as they were, and no call is
    made into the host (the trace holds the visits only). *)
Theorem SafeDeleteObjects_nothing_valid arr out s :
  (forall o, o ∈ arr -> IsValid s o = false) ->
  SafeDeleteObjects arr out s
  = ((0%Z, [], out), s,
     map (fun o => EvVisit o SkippedInvalid) (fresh_seq ∅ (rev arr))).
Proof.
  intros Hinv. unfold SafeDeleteObjects.
  set (L0 := Build_Locals arr out 0 false [] ∅).
  destruct (SafeDeleteLoop_nothing_valid (length arr) L0 s (Nat.le_refl _)
              Hinv) as (L' & Heq & H1 & H2 & H3 & H4 & H5).
  unfold bind at 1. rewrite Heq.
  unfold FinalCleanup, bind, ret. rewrite H1, H2, H3, H4, H5. cbn.
  by rewrite app_nil_r.
Qed.

Lemma visited_with_partition (vs : list (UObject * Outcome)) :
  length vs
  = (length (visited_with IsDeleted vs)
     + length (visited_with IsNotDeleted vs)
     + length (visited_with
                 (fun r => match r with SkippedInvalid => true
                                      | _ => false end) vs))%nat.
Proof.
  unfold visited_with.
  induction vs as [| [o r] vs IH]; cbn; [reflexivity |].
  destruct r; cbn; lia.
Qed.

Lemma visited_with_sublist P (vs : list (UObject * Outcome)) :
  visited_with P vs `sublist_of` vs.*1.
Proof.
  unfold visited_with.
  induction vs as [| [o r] vs IH]; cbn; [constructor |].
  destruct (P r); by constructor.
Qed.

(** The returned count is the number of objects the host's
    [DeleteSingleObject] reported deleted (a [TArray] holds fewer than
    [2^31] elements, so the [int32] counter cannot wrap), and every
    distinct object of the batch was deleted, reported or skipped. *)
Theorem SafeDeleteObjects_count arr out s :
  (Z.of_nat (length arr) < 2 ^ 31)%Z ->
  let r := SafeDeleteObjects arr out s in
  let vs := visits (trace r) in
  (result r).1.1 = Z.of_nat (length (deleted (trace r)))
  /\ size (list_to_set arr : gset UObject)
     = (length (deleted (trace r))
        + length (visited_with IsNotDeleted vs)
        + length (visited_with
                    (fun r => match r with SkippedInvalid => true
                                         | _ => false end) vs))%nat.
Proof.
  intros Hlen. cbn zeta.
  destruct (SafeDeleteObjects_run arr out s)
    as (s' & trLoop & Heq & Hv & Hc & Ha & Hd).
  cbn zeta in Heq, Hv, Ha, Hd. rewrite Heq. unfold trace, result; cbn [fst snd].
  destruct (FinalCalls_quiet (visits trLoop)) as (Hq1 & _ & Hq3 & _).
  rewrite visits_app, deleted_app, Hq1, Hq3, !app_nil_r, Hd.
  assert (Hsize : size (list_to_set arr : gset UObject)
                  = length (visits trLoop)).
  { rewrite <- (length_fmap fst), Hv.
    change (size (list_to_set arr : gset UObject))
      with (length (elements (list_to_set arr : gset UObject))).
    apply Permutation_length, NoDup_Permutation.
    - apply NoDup_elements.
    - apply fresh_seq_NoDup.
    - intros x. rewrite elem_of_elements, elem_of_list_to_set,
        fresh_seq_elem_of, elem_of_rev. set_solver. }
  assert (Hpart : length (visits trLoop)
            = (length (visited_with IsDeleted (visits trLoop))
               + length (visited_with IsNotDeleted (visits trLoop))
               + length (visited_with
                           (fun r => match r with SkippedInvalid => true
                                                | _ => false end)
                           (visits trLoop)))%nat).
  { apply visited_with_partition. }
  split; [| by rewrite Hsize].
  apply int32_wrap_small.
  pose proof (NoDup_length_le_size (visits trLoop).*1 arr) as Hle.
  rewrite length_fmap in Hle.
  assert (size (list_to_set arr : gset UObject) <= length arr).
  { change (size (list_to_set arr : gset UObject))
      with (length (elements (list_to_set arr : gset UObject))).
    apply submseteq_length, NoDup_submseteq; [apply NoDup_elements |].
    intros x. by rewrite elem_of_elements, elem_of_list_to_set. }
  lia.
Qed.

Lemma fresh_seq_sublist l : forall seen, fresh_seq seen l `sublist_of` l.
Proof.
  induction l as [| x l IH]; intros seen; cbn; [constructor |].
  case_bool_decide; [apply sublist_cons | apply sublist_skip]; apply IH.
Qed.

Lemma fresh_seq_NoDup_id l : forall seen,
  NoDup l -> (forall x, x ∈ l -> x ∉ seen) -> fresh_seq seen l = l.
Proof.
  induction l as [| x l IH]; intros seen Hnd Hseen; cbn; [reflexivity |].
  apply NoDup_cons in Hnd as [Hx Hnd].
  rewrite bool_decide_eq_false_2 by (apply Hseen; by left).
  f_equal. apply IH; [exact Hnd |].
  intros y Hy. specialize (Hseen y (list_elem_of_further _ _ _ Hy)).
  set_solver.
Qed.

(** The batch is worked through from the back of the array: the objects
    are visited in the order of their last occurrences read backwards
    (for an array without repeats, in reverse order), and the objects not
    deleted are appended to the output list in that order. *)
Theorem SafeDeleteObjects_order arr out s :
  let r := SafeDeleteObjects arr out s in
  let vs := visits (trace r) in
  vs.*1 = fresh_seq ∅ (rev arr)
  /\ vs.*1 `sublist_of` rev arr
  /\ (NoDup arr -> vs.*1 = rev arr)
  /\ visited_with IsNotDeleted vs `sublist_of` rev arr
  /\ (result r).2 = (fun l => l ++ visited_with IsNotDeleted vs) <$> out.
Proof.
  cbn zeta.
  destruct (SafeDeleteObjects_run arr out s)
    as (s' & trLoop & Heq & Hv & _).
  cbn zeta in Heq, Hv. rewrite Heq. unfold trace, result; cbn [fst snd].
  destruct (FinalCalls_quiet (visits trLoop)) as (Hq1 & _).
  rewrite visits_app, Hq1, app_nil_r.
  split; [exact Hv |].
  assert (Hsub : (visits trLoop).*1 `sublist_of` rev arr).
  { rewrite Hv. apply fresh_seq_sublist. }
  split; [exact Hsub |]. split.
  { intros Hnd. rewrite Hv. apply fresh_seq_NoDup_id.
    - by apply NoDup_ListNoDup, NoDup_rev, NoDup_ListNoDup.
    - set_solver. }
  split; [| reflexivity].
  etransitivity; [apply visited_with_sublist | exact Hsub].
Qed.

(** The locals of a run that was given no output list. *)
Definition DropOut (L : Locals) : Locals :=
  {| InObjectsToDelete := InObjectsToDelete L;
     OutObjectsNotDeleted := None;
     NumDeleted := NumDeleted L;
     bGarbageCollectionRequired := bGarbageCollectionRequired L;
     PackagesToCleanUp := PackagesToCleanUp L;
     ProcessedObjects := ProcessedObjects L |}.

Lemma LoopBody_DropOut o L s :
  LoopBody o (DropOut L) s
  = ((DropOut (LoopBody o L s).1.1), (LoopBody o L s).1.2,
     (LoopBody o L s).2).
Proof.
  unfold LoopBody. cbn [ProcessedObjects DropOut].
  case_bool_decide; [reflexivity |].
  unfold bind, query, mark, ret.
  destruct (IsValid s o); cbn [negb]; [| reflexivity].
  destruct (SafeDeleteSingleObject o s) as [[[[bDel pkg] inMem] s'] tr].
  destruct bDel; cbn; [reflexivity |].
  by destruct (OutObjectsNotDeleted L).
Qed.

Lemma SafeDeleteLoop_DropOut fuel : forall L s,
  SafeDeleteLoop fuel (DropOut L) s
  = ((DropOut (SafeDeleteLoop fuel L s).1.1), (SafeDeleteLoop fuel L s).1.2,
     (SafeDeleteLoop fuel L s).2).
Proof.
  induction fuel as [| fuel IH]; intros L s; cbn [SafeDeleteLoop];
    [reflexivity |].
  cbn [InObjectsToDelete DropOut].
  destruct (Pop (InObjectsToDelete L)) as [[x rest] |]; [| reflexivity].
  change (SetInObjectsToDelete rest (DropOut L))
    with (DropOut (SetInObjectsToDelete rest L)).
  unfold bind. rewrite LoopBody_DropOut.
  destruct (LoopBody x (SetInObjectsToDelete rest L) s) as [[L1 s1] t1].
  cbn [fst snd]. rewrite IH.
  by destruct (SafeDeleteLoop fuel L1 s1) as [[L2 s2] t2].
Qed.

(** Passing a null [OutObjectsNotDeleted] changes nothing but the missing
    report: count, emptied array, host calls and final host state are
    those of the run that is given a list. *)
Theorem SafeDeleteObjects_without_output arr l s :
  let r0 := SafeDeleteObjects arr None s in
  let r1 := SafeDeleteObjects arr (Some l) s in
  (result r0).2 = None
  /\ (result r0).1 = (result r1).1
  /\ final r0 = final r1
  /\ trace r0 = trace r1.
Proof.
  cbn zeta. unfold SafeDeleteObjects.
  change (Build_Locals arr None 0 false [] ∅)
    with (DropOut (Build_Locals arr (Some l) 0 false [] ∅)).
  unfold bind at 1 3 5 7 9 11 13. rewrite SafeDeleteLoop_DropOut.
  destruct (SafeDeleteLoop (length arr) _ s) as [[L1 s1] t1].
  cbn [fst snd].
  unfold bind, ret, result, final, trace.
  change (FinalCleanup (DropOut L1) s1) with (FinalCleanup L1 s1).
  by destruct (FinalCleanup L1 s1) as [[[] s2] t2].
Qed.

End Host.

(** *** A sample editor

    A small, fully computable host on which the statements above are
    exercised.  Its state is the list of objects destroyed so far.  An
    object is valid when it is not null and not destroyed; objects at
    addresses of 100 and above are referenced by something;
    [DeleteSingleObject] always succeeds; the package of an object is
    its address divided by ten, and the packages at odd addresses exist
    on disk. *)
Module Sample.

Definition State : Type := list UObject.

Definition IsValid (s : State) (o : UObject) : bool :=
  negb (o =? nullptr)%N && negb (existsb (N.eqb o) s).

Definition IsValidPackage (s : State) (p : UPackage) : bool :=
  negb (p =? nullptr)%N.

Definition GatherObjectReferencersForDeletion (s : State) (o : UObject)
  : bool * bool * bool * State :=
  (true, (100 <=? o)%N, false, s).

Definition DeleteSingleObject (s : State) (o : UObject) (bCheck : bool)
  : bool * State :=
  (true, o :: s).

Definition GetOutermost (s : State) (o : UObject) : UPackage :=
  (o / 10)%N.

Definition DoesPackageExist (s : State) (p : UPackage) : bool :=
  N.odd p.

Definition CollectGarbage (s : State) : State := s.

Definition CleanupAfterSuccessfulDelete (s : State)
    (pkgs : list UPackage) : State := s.

Definition SafeDeleteSingleObject :=
  Deletion.SafeDeleteSingleObject State IsValid IsValidPackage
    GatherObjectReferencersForDeletion DeleteSingleObject
    GetOutermost DoesPackageExist.

Definition SafeDeleteObjects :=
  Deletion.SafeDeleteObjects State IsValid IsValidPackage
    GatherObjectReferencersForDeletion DeleteSingleObject
    GetOutermost DoesPackageExist CollectGarbage
    CleanupAfterSuccessfulDelete.

End Sample.

Example SafeDeleteSingleObject_referenced :
  Sample.SafeDeleteSingleObject 100%N []
  = ((false, nullptr, false), [],
     [EvGatherObjectReferencersForDeletion 100%N true true false]).
Proof. reflexivity. Qed.

Example SafeDeleteSingleObject_in_memory :
  Sample.SafeDeleteSingleObject 7%N []
  = ((true, 0%N, true), [7%N],
     [EvGatherObjectReferencersForDeletion 7%N true false false;
      EvDeleteSingleObject 7%N true true]).
Proof. reflexivity. Qed.

(** A batch with a duplicate, a null pointer, a referenced object and
    objects in both kinds of package. *)
Example SafeDeleteObjects_batch :
  Sample.SafeDeleteObjects [7; 100; 0; 15; 7; 15]%N (Some []) []
  = ((2%Z, [], Some [100%N]), [7%N; 15%N],
     [EvGatherObjectReferencersForDeletion 15%N true false false;
      EvDeleteSingleObject 15%N true true;
      EvVisit 15%N (Deleted 1%N false);
      EvGatherObjectReferencersForDeletion 7%N true false false;
      EvDeleteSingleObject 7%N true true;
      EvVisit 7%N (Deleted 0%N true);
      EvVisit 0%N SkippedInvalid;
      EvGatherObjectReferencersForDeletion 100%N true true false;
      EvVisit 100%N NotDeleted;
      EvCleanupAfterSuccessfulDelete [1%N]]).
Proof. vm_compute. reflexivity. Qed.


(** Objects 15 and 12 lie in package 1, object 35 in package 3: the
    cleanup gets each package once, in the order of the deletions. *)
Example SafeDeleteObjects_cleanup_order :
  last (trace Sample.State
          (Sample.SafeDeleteObjects [12; 35; 15]%N None []))
  = Some (EvCleanupAfterSuccessfulDelete [1; 3]%N).
Proof. vm_compute. reflexivity. Qed.

(** The refusal of C1 on the sample editor: object 100 is referenced. *)
Lemma SafeDeleteSingleObject_refuses_referenced_witness :
  Sample.GatherObjectReferencersForDeletion [] 100%N
  = (true, true, false, [])
  /\ (result Sample.State (Sample.SafeDeleteSingleObject 100%N [])
      = (false, nullptr, false)
      /\ attempts (trace Sample.State (Sample.SafeDeleteSingleObject 100%N []))
         = []
      /\ trace Sample.State (Sample.SafeDeleteSingleObject 100%N [])
         = (if Sample.IsValid [] 100%N
            then [EvGatherObjectReferencersForDeletion 100%N true true false]
            else [])
      /\ final Sample.State (Sample.SafeDeleteSingleObject 100%N [])
         = (if Sample.IsValid [] 100%N then [] else [])).
Proof.
  split; [reflexivity |].
  apply (SafeDeleteSingleObject_refuses_referenced
           Sample.State Sample.IsValid Sample.IsValidPackage
           Sample.GatherObjectReferencersForDeletion
           Sample.DeleteSingleObject Sample.GetOutermost
           Sample.DoesPackageExist 100%N [] true false []).
  reflexivity.
Defined.


Lemma Sample_nulls_invalid :
  forall o, o ∈ [nullptr; nullptr] -> Sample.IsValid [] o = false.
Proof.
  intros o Ho. apply elem_of_cons in Ho as [-> | Ho]; [reflexivity |].
  apply list_elem_of_singleton in Ho as ->. reflexivity.
Qed.

Lemma SafeDeleteObjects_nothing_valid_witness :
  (forall o, o ∈ [nullptr; nullptr] -> Sample.IsValid [] o = false)
  /\ Sample.SafeDeleteObjects [nullptr; nullptr] (Some [5%N]) []
     = ((0%Z, [], Some [5%N]), [],
        map (fun o => EvVisit o SkippedInvalid)
          (fresh_seq ∅ (rev [nullptr; nullptr]))).
Proof.
  split; [exact Sample_nulls_invalid |].
  apply (SafeDeleteObjects_nothing_valid Sample.State Sample.IsValid
           Sample.IsValidPackage Sample.GatherObjectReferencersForDeletion
           Sample.DeleteSingleObject Sample.GetOutermost
           Sample.DoesPackageExist Sample.CollectGarbage
           Sample.CleanupAfterSuccessfulDelete
           [nullptr; nullptr] (Some [5%N]) []).
  exact Sample_nulls_invalid.
Defined.

Lemma SafeDeleteObjects_count_witness :
  (Z.of_nat (length [7; 100; 0; 15; 7; 15]%N) < 2 ^ 31)%Z
  /\ (result Sample.State
        (Sample.SafeDeleteObjects [7; 100; 0; 15; 7; 15]%N None [])).1.1
     = Z.of_nat
         (length
            (deleted
               (trace Sample.State
                  (Sample.SafeDeleteObjects [7; 100; 0; 15; 7; 15]%N
                     None [])))).
Proof.
  split; [reflexivity |].
  apply (SafeDeleteObjects_count Sample.State Sample.IsValid
           Sample.IsValidPackage Sample.GatherObjectReferencersForDeletion
           Sample.DeleteSingleObject Sample.GetOutermost
           Sample.DoesPackageExist Sample.CollectGarbage
           Sample.CleanupAfterSuccessfulDelete
           [7; 100; 0; 15; 7; 15]%N None []).
  reflexivity.
Defined.

End Deletion.

(** ** Property propagation: [CopyComponentProperties] *)

Module PropertyCopy.

(** Components and other objects are handled through pointers; the model
    keeps addresses, [0] for [nullptr]. *)
Definition UActorComponent : Type := N.
Definition AActor : Type := N.
Definition UClass : Type := N.
Definition nullptr : N := 0%N.

(** A [UObject*]: either a component ([inl]) or an object of another kind,
    such as an actor ([inr]). *)
Definition UObject : Type := (UActorComponent + N)%type.

(** An [FProperty] of a class: its own address (properties are compared
    and stored in sets by pointer, and a component's value for the
    property is found through it), its name and its [PropertyFlags]. *)
Record FProperty : Type := {
  PropAddr : N;
  GetFName : string;
  PropertyFlags : Z
}.

(** [EditorUtilities::FCopyOptions]: the flag word and the optional
    property filter. *)
Record FCopyOptions : Type := {
  Flags : Z;
  PropertyFilter : option (FProperty -> UActorComponent -> bool)
}.

(** [FCopyOptions::CanCopyProperty]: no filter, or the filter accepts. *)
Definition CanCopyProperty (Options : FCopyOptions) (Property : FProperty)
    (Object : UActorComponent) : bool :=
  match PropertyFilter Options with
  | None => true
  | Some f => f Property Object
  end.

(** The calls into the editor that change an object or notify it. *)
Inductive Event : Type :=
| EvSetFlags (o : UObject) (flags : Z)
| EvModify (o : UObject)
| EvPreEditChange (c : UActorComponent) (p : N)
| EvPostEditChangeProperty (c : UActorComponent) (p : N)
| EvCopySingleProperty (src dst : UActorComponent) (p : N)
| EvUnregisterComponent (c : UActorComponent)
| EvRegisterComponent (c : UActorComponent).

(** How a run ends: normally, on a failed [check]/[CastChecked], or with
    the archetype walk still going when the fuel is spent. *)
Inductive Outcome (A : Type) : Type :=
| Done (a : A)
| Aborted
| OutOfFuel.
Arguments Done {A} a.
Arguments Aborted {A}.
Arguments OutOfFuel {A}.

Definition obind {A B : Type} (m : Outcome A) (k : A -> Outcome B)
  : Outcome B :=
  match m with
  | Done a => k a
  | Aborted => Aborted
  | OutOfFuel => OutOfFuel
  end.

Notation "x <- m ;; k" := (obind m (fun x => k))
  (at level 100, m at next level, right associativity).

(** [(word & mask) != 0]. *)
Definition HasFlag (word mask : Z) : bool :=
  negb (Z.land word mask =? 0)%Z.

Definition HasAnyPropertyFlags (P : FProperty) (mask : Z) : bool :=
  HasFlag (PropertyFlags P) mask.

(** [(word & mask) == mask]. *)
Definition HasAllPropertyFlags (P : FProperty) (mask : Z) : bool :=
  (Z.land (PropertyFlags P) mask =? mask)%Z.

(** [Cast<UActorComponent>]: null for a null pointer and for an object
    that is not a component.  [CastChecked] is the same conversion with a
    fatal error in place of the null result. *)
Definition Cast (o : UObject) : option UActorComponent :=
  match o with
  | inl c => if (c =? nullptr)%N then None else Some c
  | inr _ => None
  end.

Definition CastChecked (o : UObject) : Outcome UActorComponent :=
  match Cast o with
  | Some c => Done c
  | None => Aborted
  end.

Definition fupd {A B : Type} `{EqDecision A} (f : A -> B) (a : A) (b : B)
  : A -> B :=
  fun x => if decide (x = a) then b else f x.

Section Editor.

(** Property values, compared by [FProperty::Identical_InContainer]. *)
Context {Value : Type} `{EqDecision Value}.

(** Engine constants: property flags, object flags, copy options and the
    names of the three relative-transform properties of
    [USceneComponent]. *)
Variable CPF_Edit CPF_Interp CPF_Transient CPF_DisableEditOnTemplate : Z.
Variable CPF_InstancedReference CPF_ContainsInstancedReference : Z.
Variable RF_Transactional : Z.
Variable PreviewOnly CallPostEditChangeProperty : Z.
Variable OnlyCopyEditOrInterpProperties SkipInstanceOnlyProperties : Z.
Variable PropagateChangesToArchetypeInstances : Z.
Variable RelativeScale3DPropertyName : string.
Variable RelativeLocationPropertyName : string.
Variable RelativeRotationPropertyName : string.

(** The parts of the object graph the function only reads. *)
Variable GetClass : UActorComponent -> UClass.
(** The chain [PropertyLink], [PropertyLinkNext], ... of a class. *)
Variable PropertyLink : UClass -> list FProperty.
Variable GetArchetypeInstances : UActorComponent -> list UObject.
Variable GetArchetype : UActorComponent -> UObject.
Variable GetUCSModifiedProperties : UActorComponent -> gset N.
Variable IsCreatedByConstructionScript : UActorComponent -> bool.
Variable GetOwner : UActorComponent -> AActor.

(** The parts it writes: property values, object flags, registration,
    and the record of the calls made. *)
Record EditorState : Type := {
  Values : UActorComponent -> N -> Value;
  ObjectFlags : UObject -> Z;
  Registered : UActorComponent -> bool;
  Calls : list Event
}.

Definition log (e : Event) (st : EditorState) : EditorState :=
  {| Values := Values st;
     ObjectFlags := ObjectFlags st;
     Registered := Registered st;
     Calls := Calls st ++ [e] |}.

(** [UObject::SetFlags]: [ObjectFlags |= flags]. *)
Definition SetFlags (o : UObject) (flags : Z) (st : EditorState)
  : EditorState :=
  log (EvSetFlags o flags)
    {| Values := Values st;
       ObjectFlags := fupd (ObjectFlags st) o (Z.lor (ObjectFlags st o) flags);
       Registered := Registered st;
       Calls := Calls st |}.

(** [UObject::Modify]: records the object in the transaction buffer. *)
Definition Modify (o : UObject) (st : EditorState) : EditorState :=
  log (EvModify o) st.

Definition PreEditChange (c : UActorComponent) (P : FProperty)
    (st : EditorState) : EditorState :=
  log (EvPreEditChange c (PropAddr P)) st.

Definition PostEditChangeProperty (c : UActorComponent) (P : FProperty)
    (st : EditorState) : EditorState :=
  log (EvPostEditChangeProperty c (PropAddr P)) st.

Definition SetRegistered (c : UActorComponent) (b : bool)
    (st : EditorState) : EditorState :=
  {| Values := Values st;
     ObjectFlags := ObjectFlags st;
     Registered := fupd (Registered st) c b;
     Calls := Calls st |}.

Definition UnregisterComponent (c : UActorComponent) (st : EditorState)
  : EditorState :=
  log (EvUnregisterComponent c) (SetRegistered c false st).

Definition RegisterComponent (c : UActorComponent) (st : EditorState)
  : EditorState :=
  log (EvRegisterComponent c) (SetRegistered c true st).

(** [EditorUtilities::CopySingleProperty]: the target's value of the
    property becomes the source's. *)
Definition CopySingleProperty (Src Dst : UActorComponent) (P : FProperty)
    (st : EditorState) : EditorState :=
  log (EvCopySingleProperty Src Dst (PropAddr P))
    {| Values :=
         fupd (Values st) Dst
           (fupd (Values st Dst) (PropAddr P) (Values st Src (PropAddr P)));
       ObjectFlags := ObjectFlags st;
       Registered := Registered st;
       Calls := Calls st |}.

Definition Identical_InContainer (st : EditorState) (P : FProperty)
    (A B : UActorComponent) : bool :=
  bool_decide (Values st A (PropAddr P) = Values st B (PropAddr P)).

(** Lines 226-240: the archetype instances of the target that are
    components and are neither the source nor the target. *)
Definition ComponentArchetypeInstances (Options : FCopyOptions)
    (SourceComponent TargetComponent : UActorComponent)
  : list UActorComponent :=
  if HasFlag (Flags Options) PropagateChangesToArchetypeInstances then
    omap (fun ObjInstance =>
            match Cast ObjInstance with
            | Some ComponentInstance =>
                if negb (ComponentInstance =? SourceComponent)%N
                   && negb (ComponentInstance =? TargetComponent)%N
                then Some ComponentInstance
                else None
            | None => None
            end)
         (GetArchetypeInstances TargetComponent)
  else [].

(** Lines 319-327: [while (CheckComponent != ComponentArchetypeInstance)].
    The result is the final [bAdd]. *)
Fixpoint ArchetypeWalk (fuel : nat) (st : EditorState) (P : FProperty)
    (TargetComponent ComponentArchetypeInstance CheckComponent
       : UActorComponent) : Outcome bool :=
  match fuel with
  | O => OutOfFuel
  | S fuel' =>
      if (CheckComponent =? ComponentArchetypeInstance)%N then Done true
      else if negb (Identical_InContainer st P CheckComponent TargetComponent)
      then Done false
      else
        Next <- CastChecked (GetArchetype CheckComponent) ;;
        ArchetypeWalk fuel' st P TargetComponent ComponentArchetypeInstance
          Next
  end.

(** Lines 310-335: the instances whose value of the property matches the
    target's, appended to [ToChange] in order. *)
Fixpoint InstancesToChange (fuel : nat) (st : EditorState) (P : FProperty)
    (TargetComponent : UActorComponent)
    (Instances ToChange : list UActorComponent)
  : Outcome (list UActorComponent) :=
  match Instances with
  | [] => Done ToChange
  | ComponentArchetypeInstance :: rest =>
      if negb (ComponentArchetypeInstance =? nullptr)%N
         && Identical_InContainer st P ComponentArchetypeInstance
              TargetComponent
      then
        bAdd <-
          (if bool_decide (GetArchetype ComponentArchetypeInstance
                           <> inl TargetComponent)
           then
             CheckComponent <-
               CastChecked (GetArchetype ComponentArchetypeInstance) ;;
             ArchetypeWalk fuel st P TargetComponent
               ComponentArchetypeInstance CheckComponent
           else Done true) ;;
        InstancesToChange fuel st P TargetComponent rest
          (if bAdd : bool then ToChange ++ [ComponentArchetypeInstance]
           else ToChange)
      else InstancesToChange fuel st P TargetComponent rest ToChange
  end.

(** Lines 353-371: put the instance, and its owner, under the
    transaction, unless [ModifiedObjects] has the instance already. *)
Definition MarkInstance (ComponentArchetypeInstance : UActorComponent)
    (st : EditorState) (ModifiedObjects : gset UObject)
  : EditorState * gset UObject :=
  if negb (bool_decide (inl ComponentArchetypeInstance ∈ ModifiedObjects))
  then
    let '(st', Modified') :=
      if negb (IsCreatedByConstructionScript ComponentArchetypeInstance)
      then
        (Modify (inl ComponentArchetypeInstance)
           (SetFlags (inl ComponentArchetypeInstance) RF_Transactional st),
         {[inl ComponentArchetypeInstance]} ∪ ModifiedObjects)
      else (st, ModifiedObjects) in
    let Owner := GetOwner ComponentArchetypeInstance in
    if negb (Owner =? nullptr)%N
       && negb (bool_decide (inr Owner ∈ Modified'))
    then (Modify (inr Owner) st', {[inr Owner]} ∪ Modified')
    else (st', Modified')
  else (st, ModifiedObjects).

(** Lines 373-377: unregister a registered instance and remember it. *)
Definition UnregisterForCopy (ComponentArchetypeInstance : UActorComponent)
    (st : EditorState) (ToReregister : list UActorComponent)
  : EditorState * list UActorComponent :=
  if Registered st ComponentArchetypeInstance
  then (UnregisterComponent ComponentArchetypeInstance st,
        ToReregister ++ [ComponentArchetypeInstance])
  else (st, ToReregister).

(** Lines 348-381: the copy into each instance to change.  Threads the
    state, [ModifiedObjects] and [ComponentInstancesToReregister]. *)
Fixpoint PropagateLoop (P : FProperty) (TargetComponent : UActorComponent)
    (ToChange : list UActorComponent)
    (acc : EditorState * gset UObject * list UActorComponent)
  : EditorState * gset UObject * list UActorComponent :=
  match ToChange with
  | [] => acc
  | ComponentArchetypeInstance :: rest =>
      if (ComponentArchetypeInstance =? nullptr)%N
      then PropagateLoop P TargetComponent rest acc
      else
        let '(st, ModifiedObjects, ToReregister) := acc in
        let '(st1, Modified1) :=
          MarkInstance ComponentArchetypeInstance st ModifiedObjects in
        let '(st2, ToReregister2) :=
          UnregisterForCopy ComponentArchetypeInstance st1 ToReregister in
        PropagateLoop P TargetComponent rest
          (CopySingleProperty TargetComponent ComponentArchetypeInstance P
             st2,
           Modified1, ToReregister2)
  end.

(** The tests of lines 250-256 and 276-290 that do not depend on
    [PreviewOnly]: [true] when the property gets past all of them. *)
Definition PassesFilters (Options : FCopyOptions)
    (SourceUCSModifiedProperties : gset N)
    (SourceComponent TargetComponent : UActorComponent)
    (st : EditorState) (P : FProperty) : bool :=
  let bIsTransient := HasFlag (PropertyFlags P) CPF_Transient in
  let bIsIdentical :=
    Identical_InContainer st P SourceComponent TargetComponent in
  let bIsComponent :=
    HasFlag (PropertyFlags P)
      (Z.lor CPF_InstancedReference CPF_ContainsInstancedReference) in
  let bIsTransform :=
    (GetFName P =? RelativeScale3DPropertyName)%string
    || (GetFName P =? RelativeLocationPropertyName)%string
    || (GetFName P =? RelativeRotationPropertyName)%string in
  if negb bIsTransient && negb bIsIdentical && negb bIsComponent
     && negb (bool_decide (PropAddr P ∈ SourceUCSModifiedProperties))
     && negb bIsTransform
  then
    let bIsSafeToCopy :=
      (negb (HasFlag (Flags Options) OnlyCopyEditOrInterpProperties)
       || HasAnyPropertyFlags P (Z.lor CPF_Edit CPF_Interp))
      && (negb (HasFlag (Flags Options) SkipInstanceOnlyProperties)
          || negb (HasAllPropertyFlags P CPF_DisableEditOnTemplate)) in
    if bIsSafeToCopy
    then CanCopyProperty Options P SourceComponent
    else false
  else false.

(** Lines 292-383: the block under [if (!bIsPreviewing)]. *)
Definition ApplyCopy (fuel : nat) (Options : FCopyOptions)
    (SourceComponent TargetComponent : UActorComponent)
    (Instances : list UActorComponent) (P : FProperty)
    (st : EditorState) (ToReregister : list UActorComponent)
  : Outcome (EditorState * list UActorComponent) :=
  let ModifiedObjects : gset UObject := ∅ in
  let '(st1, Modified1) :=
    if negb (bool_decide (inl TargetComponent ∈ ModifiedObjects))
    then (Modify (inl TargetComponent)
            (SetFlags (inl TargetComponent) RF_Transactional st),
          {[inl TargetComponent]} ∪ ModifiedObjects)
    else (st, ModifiedObjects) in
  let st2 :=
    if HasFlag (Flags Options) CallPostEditChangeProperty
    then PreEditChange TargetComponent P st1
    else st1 in
  ToChange <-
    (if HasFlag (Flags Options) PropagateChangesToArchetypeInstances
     then InstancesToChange fuel st2 P TargetComponent Instances []
     else Done []) ;;
  let st3 := CopySingleProperty SourceComponent TargetComponent P st2 in
  let st4 :=
    if HasFlag (Flags Options) CallPostEditChangeProperty
    then PostEditChangeProperty TargetComponent P st3
    else st3 in
  if HasFlag (Flags Options) PropagateChangesToArchetypeInstances
  then
    let '(st5, _, ToReregister') :=
      PropagateLoop P TargetComponent ToChange
        (st4, Modified1, ToReregister) in
    Done (st5, ToReregister')
  else Done (st4, ToReregister).

(** One pass of the loop over the properties (lines 248-393). *)
Definition PropertyStep (fuel : nat) (Options : FCopyOptions)
    (SourceUCSModifiedProperties : gset N)
    (SourceComponent TargetComponent : UActorComponent)
    (Instances : list UActorComponent) (P : FProperty)
    (acc : EditorState * Z * list UActorComponent)
  : Outcome (EditorState * Z * list UActorComponent) :=
  let '(st, CopiedPropertyCount, ToReregister) := acc in
  let bIsPreviewing := HasFlag (Flags Options) PreviewOnly in
  if PassesFilters Options SourceUCSModifiedProperties SourceComponent
       TargetComponent st P
  then
    r <- (if negb bIsPreviewing
          then ApplyCopy fuel Options SourceComponent TargetComponent
                 Instances P st ToReregister
          else Done (st, ToReregister)) ;;
    Done (r.1, int32_wrap (CopiedPropertyCount + 1), r.2)
  else Done acc.

Fixpoint PropertyLoop (fuel : nat) (Options : FCopyOptions)
    (SourceUCSModifiedProperties : gset N)
    (SourceComponent TargetComponent : UActorComponent)
    (Instances : list UActorComponent) (Properties : list FProperty)
    (acc : EditorState * Z * list UActorComponent)
  : Outcome (EditorState * Z * list UActorComponent) :=
  match Properties with
  | [] => Done acc
  | P :: rest =>
      acc' <- PropertyStep fuel Options SourceUCSModifiedProperties
                SourceComponent TargetComponent Instances P acc ;;
      PropertyLoop fuel Options SourceUCSModifiedProperties SourceComponent
        TargetComponent Instances rest acc'
  end.

(** Returns [CopiedPropertyCount] and the editor's final state.  [fuel]
    bounds each walk up an archetype chain. *)
Definition CopyComponentProperties (fuel : nat)
    (SourceComponent TargetComponent : UActorComponent)
    (Options : FCopyOptions) (st : EditorState)
  : Outcome (Z * EditorState) :=
  let ComponentClass := GetClass SourceComponent in
  if negb (ComponentClass =? GetClass TargetComponent)%N
  then Aborted (* check( ComponentClass == TargetComponent->GetClass() ) *)
  else
    let Instances :=
      ComponentArchetypeInstances Options SourceComponent TargetComponent in
    let SourceUCSModifiedProperties :=
      GetUCSModifiedProperties SourceComponent in
    r <- PropertyLoop fuel Options SourceUCSModifiedProperties
           SourceComponent TargetComponent Instances
           (PropertyLink ComponentClass) (st, 0%Z, []) ;;
    let '(st1, CopiedPropertyCount, ToReregister) := r in
    Done (CopiedPropertyCount,
          fold_left (fun s c => RegisterComponent c s) ToReregister st1).

(** *** Frame facts for the primitive calls *)

(** [RF_Transactional] is set on the object. *)
Definition IsTransactional (st : EditorState) (o : UObject) : Prop :=
  Z.land (ObjectFlags st o) RF_Transactional = RF_Transactional.

Lemma land_lor_absorb (f m : Z) : Z.land (Z.lor f m) m = m.
Proof.
  apply Z.bits_inj'. intros i _.
  rewrite Z.land_spec, Z.lor_spec.
  destruct (Z.testbit f i), (Z.testbit m i); reflexivity.
Qed.

Lemma land_lor_keep (f g m : Z) :
  Z.land f m = m -> Z.land (Z.lor f g) m = m.
Proof.
  intros Hf. apply Z.bits_inj'. intros i _.
  apply (f_equal (fun z => Z.testbit z i)) in Hf.
  rewrite Z.land_spec in Hf. rewrite Z.land_spec, Z.lor_spec.
  destruct (Z.testbit f i), (Z.testbit g i), (Z.testbit m i);
    cbn in *; congruence.
Qed.

Lemma fupd_eq {A B : Type} `{EqDecision A} (f : A -> B) a b :
  fupd f a b a = b.
Proof. unfold fupd. by rewrite decide_True. Qed.

Lemma fupd_ne {A B : Type} `{EqDecision A} (f : A -> B) a b x :
  x <> a -> fupd f a b x = f x.
Proof. intros Hne. unfold fupd. by rewrite decide_False. Qed.

Lemma SetFlags_transactional o st :
  IsTransactional (SetFlags o RF_Transactional st) o.
Proof.
  unfold IsTransactional, SetFlags; cbn. rewrite fupd_eq.
  apply land_lor_absorb.
Qed.

Lemma SetFlags_keeps o f st o' :
  IsTransactional st o' -> IsTransactional (SetFlags o f st) o'.
Proof.
  unfold IsTransactional, SetFlags; cbn. intros Ht.
  destruct (decide (o' = o)) as [-> | Hne].
  - rewrite fupd_eq. by apply land_lor_keep.
  - by rewrite fupd_ne.
Qed.

Lemma CopySingleProperty_Values Src Dst P st c q :
  Values (CopySingleProperty Src Dst P st) c q
  = if decide (c = Dst /\ q = PropAddr P)
    then Values st Src (PropAddr P)
    else Values st c q.
Proof.
  unfold CopySingleProperty; cbn. unfold fupd.
  destruct (decide (c = Dst)) as [-> | Hc].
  - destruct (decide (q = PropAddr P)) as [-> | Hq].
    + by rewrite decide_True.
    + rewrite decide_False; [reflexivity | tauto].
  - rewrite decide_False; [reflexivity | tauto].
Qed.

(** *** Archetype chains *)

(** [ArchetypePath a mid b]: [b] is reached from [a] by following
    [GetArchetype], passing through exactly the components [mid]. *)
Inductive ArchetypePath
  : UActorComponent -> list UActorComponent -> UActorComponent -> Prop :=
| path_direct a b :
    GetArchetype a = inl b -> ArchetypePath a [] b
| path_step a m mid b :
    GetArchetype a = inl m -> ArchetypePath m mid b ->
    ArchetypePath a (m :: mid) b.

(** The values of one property across the components: what the walk and
    the instance selection look at. *)
Definition PropagationOK (V : UActorComponent -> Value)
    (Target Instance : UActorComponent) : Prop :=
  V Instance = V Target
  /\ forall mid,
       ArchetypePath Instance mid Target ->
Instance ∉ mid -> Target ∉ mid ->
forall c, c ∈ mid -> V c = V Target.


Lemma CastChecked_Done o c : CastChecked o = Done c -> o = inl c.
Proof.
  unfold CastChecked, Cast. destruct o as [x | x]; [| discriminate].
  destruct (x =? nullptr)%N; [discriminate |]. by intros [= ->].
Qed.

Lemma ArchetypeWalk_true fuel st P T I : forall c,
  ArchetypeWalk fuel st P T I c = Done true ->
  forall mid b,
    ArchetypePath c mid b -> c <> I -> I ∉ mid ->
    Identical_InContainer st P c T = true
    /\ forall x, x ∈ mid -> Identical_InContainer st P x T = true.
Proof.
  induction fuel as [| fuel IH]; intros c Hw mid b Hp HcI Hmid;
    [discriminate |].
  cbn in Hw.
  destruct (c =? I)%N eqn:HcI'; [apply N.eqb_eq in HcI'; contradiction |].
  destruct (Identical_InContainer st P c T) eqn:Hid; [| discriminate].
  cbn in Hw. split; [reflexivity |].
  destruct (CastChecked (GetArchetype c)) as [n | |] eqn:Hcast;
    try discriminate.
  apply CastChecked_Done in Hcast. cbn in Hw.
  inversion Hp as [a b' Ha | a m mid' b' Ha Hp']; subst.
  - intros x Hx. by apply elem_of_nil in Hx.
  - assert (m = n) by congruence. subst m.
    apply not_elem_of_cons in Hmid as [HnI Hmid'].
    destruct (IH n Hw mid' b Hp' (not_eq_sym HnI) Hmid') as [Hn Hrest].
    intros x Hx. apply elem_of_cons in Hx as [-> | Hx]; auto.
Qed.

Lemma Identical_InContainer_true st P A B :
  Identical_InContainer st P A B = true
  <-> Values st A (PropAddr P) = Values st B (PropAddr P).
Proof. unfold Identical_InContainer. apply bool_decide_eq_true. Qed.

Lemma InstancesToChange_spec fuel st P T : forall insts acc l,
  InstancesToChange fuel st P T insts acc = Done l ->
  forall x, x ∈ l ->
    x ∈ acc
    \/ (x ∈ insts /\ x <> nullptr
        /\ PropagationOK (fun c => Values st c (PropAddr P)) T x).
Proof.
  induction insts as [| i insts IH]; intros acc l Hrun x Hx; cbn in Hrun.
  { injection Hrun as <-. by left. }
  assert (Hlater : forall acc', InstancesToChange fuel st P T insts acc' = Done l ->
            x ∈ acc' \/ (x ∈ i :: insts /\ x <> nullptr
              /\ PropagationOK (fun c => Values st c (PropAddr P)) T x)).
  { intros acc' Hrun'. destruct (IH acc' l Hrun' x Hx) as [? | (? & ? & ?)];
      [by left | right; split; [by right | split; assumption]]. }
  destruct (i =? nullptr)%N eqn:Hnull; cbn in Hrun; [by apply Hlater |].
  destruct (Identical_InContainer st P i T) eqn:Hid; cbn in Hrun;
    [| by apply Hlater].
  apply N.eqb_neq in Hnull. apply Identical_InContainer_true in Hid.
  case_bool_decide as Harch.
  - (* the archetype of the instance is not the target: walk the chain *)
    destruct (CastChecked (GetArchetype i)) as [c | |] eqn:Hcast;
      try discriminate Hrun.
    cbn in Hrun.
    destruct (ArchetypeWalk fuel st P T i c) as [[] | |] eqn:Hwalk;
      try discriminate Hrun; cbn in Hrun.
    2: by apply Hlater.
    destruct (Hlater _ Hrun) as [Hacc | ?]; [| by right].
    apply elem_of_app in Hacc as [Hacc | Hi]; [by left |].
    apply list_elem_of_singleton in Hi as ->. right.
    split; [by left |]. split; [exact Hnull |]. split; [exact Hid |].
    intros mid Hp Himid Htmid y Hy.
    apply CastChecked_Done in Hcast.
    inversion Hp as [a b Ha | a m mid' b Ha Hp']; subst.
    + by apply elem_of_nil in Hy.
    + assert (m = c) by congruence. subst m.
      apply not_elem_of_cons in Himid as [Hic Himid'].
      destruct (ArchetypeWalk_true _ _ _ _ _ _ Hwalk mid' T Hp'
                  (not_eq_sym Hic) Himid') as [Hc Hrest].
      apply Identical_InContainer_true.
      apply elem_of_cons in Hy as [-> | Hy]; auto.
  - (* the instance derives from the target directly *)
    cbn in Hrun.
    destruct (Hlater _ Hrun) as [Hacc | ?]; [| by right].
    apply elem_of_app in Hacc as [Hacc | Hi]; [by left |].
    apply list_elem_of_singleton in Hi as ->. right.
    split; [by left |]. split; [exact Hnull |]. split; [exact Hid |].
    intros mid Hp Himid Htmid y Hy.
    inversion Hp as [a b Ha | a m mid' b Ha Hp']; subst.
    + by apply elem_of_nil in Hy.
    + assert (m = T) by congruence. subst m.
      exfalso. apply Htmid. by left.
Qed.

Lemma InstancesToChange_total fuel st P T : forall insts acc,
  (forall x, x ∈ insts -> GetArchetype x = inl T) ->
  exists l, InstancesToChange fuel st P T insts acc = Done l.
Proof.
  induction insts as [| i insts IH]; intros acc Hdirect; cbn.
  { by eexists. }
  assert (Hrest : forall x, x ∈ insts -> GetArchetype x = inl T).
  { intros x Hx. apply Hdirect. by right. }
  destruct (negb (i =? nullptr)%N && Identical_InContainer st P i T);
    [| by apply IH].
  rewrite bool_decide_eq_false_2.
  - cbn. by apply IH.
  - intros Hne. apply Hne, Hdirect. by left.
Qed.

(** *** The propagation into the instances *)

(** [st'] comes from [st] by the calls [tr]; flags are only ever set. *)
Record Evolves (st st' : EditorState) (tr : list Event) : Prop := {
  evolves_calls : Calls st' = Calls st ++ tr;
  evolves_flags : forall o, IsTransactional st o -> IsTransactional st' o
}.

Definition NoCopies (tr : list Event) : Prop :=
  forall s d p, ~ In (EvCopySingleProperty s d p) tr.

Lemma Evolves_refl st : Evolves st st [].
Proof. split; [by rewrite app_nil_r | auto]. Qed.

Lemma Evolves_trans st1 st2 st3 t1 t2 :
  Evolves st1 st2 t1 -> Evolves st2 st3 t2 -> Evolves st1 st3 (t1 ++ t2).
Proof.
  intros [Hc1 Hf1] [Hc2 Hf2]. split.
  - by rewrite Hc2, Hc1, app_assoc.
  - auto.
Qed.

Lemma Evolves_log e st : Evolves st (log e st) [e].
Proof. split; [reflexivity | auto]. Qed.

Lemma Evolves_SetFlags o f st : Evolves st (SetFlags o f st) [EvSetFlags o f].
Proof. split; [reflexivity | intros o'; apply SetFlags_keeps]. Qed.

Lemma Evolves_Modify o st : Evolves st (Modify o st) [EvModify o].
Proof. apply Evolves_log. Qed.

Lemma Evolves_SetRegistered c b st e :
  Evolves st (log e (SetRegistered c b st)) [e].
Proof. split; [reflexivity | auto]. Qed.

Lemma Evolves_CopySingleProperty Src Dst P st :
  Evolves st (CopySingleProperty Src Dst P st)
    [EvCopySingleProperty Src Dst (PropAddr P)].
Proof. split; [reflexivity | auto]. Qed.

Lemma NoCopies_nil : NoCopies [].
Proof. intros s d p []. Qed.


Ltac no_copies :=
  let s := fresh in let d := fresh in let p := fresh in
  let Hin := fresh in
  intros s d p Hin; cbn in Hin;
  repeat (destruct Hin as [Hin | Hin]; [discriminate Hin |]);
  exact Hin.

Lemma MarkInstance_spec inst st M st1 M1 :
  MarkInstance inst st M = (st1, M1) ->
  exists tr,
    Evolves st st1 tr
    /\ Values st1 = Values st
    /\ Registered st1 = Registered st
    /\ NoCopies tr
    /\ (forall c, inl c ∈ M1 ->
          inl c ∈ M
          \/ (c = inst
              /\ In (EvSetFlags (inl inst) RF_Transactional) tr
              /\ In (EvModify (inl inst)) tr
              /\ IsTransactional st1 (inl inst)))
    /\ (IsCreatedByConstructionScript inst = false -> inl inst ∈ M1).
Proof.
  unfold MarkInstance. intros Hm.
  destruct (bool_decide (inl inst ∈ M)) eqn:HinM; cbn in Hm.
  { injection Hm as <- <-. apply bool_decide_eq_true in HinM.
    exists []. split; [apply Evolves_refl |].
    split; [reflexivity |]. split; [reflexivity |].
    split; [no_copies |]. split; [by left | done]. }
  destruct (IsCreatedByConstructionScript inst) eqn:Hcs; cbn in Hm.
  - destruct (negb (GetOwner inst =? nullptr)%N && _); injection Hm as <- <-.
    + exists [EvModify (inr (GetOwner inst))].
      split; [apply Evolves_Modify |].
      split; [reflexivity |]. split; [reflexivity |].
      split; [no_copies |]. split; [| done].
      intros c Hc. left. set_solver.
    + exists []. split; [apply Evolves_refl |].
      split; [reflexivity |]. split; [reflexivity |].
      split; [no_copies |]. split; [by left | done].
  - set (st' := Modify (inl inst) (SetFlags (inl inst) RF_Transactional st))
      in *.
    assert (Hev : Evolves st st'
                    [EvSetFlags (inl inst) RF_Transactional;
                     EvModify (inl inst)]).
    { apply (Evolves_trans st (SetFlags (inl inst) RF_Transactional st) st'
               [_] [_]);
        [apply Evolves_SetFlags | apply Evolves_Modify]. }
    assert (Htr : IsTransactional st' (inl inst)).
    { apply (evolves_flags _ _ _ (Evolves_Modify _ _)).
      apply SetFlags_transactional. }
    destruct (negb (GetOwner inst =? nullptr)%N && _); injection Hm as <- <-.
    + exists ([EvSetFlags (inl inst) RF_Transactional; EvModify (inl inst)]
              ++ [EvModify (inr (GetOwner inst))]).
      split; [eapply Evolves_trans; [exact Hev | apply Evolves_Modify] |].
      split; [reflexivity |]. split; [reflexivity |].
      split; [no_copies |]. split; [| intros _; set_solver].
      intros c Hc.
      destruct (decide (c = inst)) as [-> | Hne]; [| left; set_solver].
      right. cbn. split; [reflexivity |]. split; [by left |].
      split; [right; by left |].
      apply (evolves_flags _ _ _ (Evolves_Modify _ _)), Htr.
    + exists [EvSetFlags (inl inst) RF_Transactional; EvModify (inl inst)].
      split; [exact Hev |].
      split; [reflexivity |]. split; [reflexivity |].
      split; [no_copies |]. split; [| intros _; set_solver].
      intros c Hc.
      destruct (decide (c = inst)) as [-> | Hne]; [| left; set_solver].
      right. cbn. split; [reflexivity |]. split; [by left |].
      split; [right; by left | exact Htr].
Qed.

Lemma UnregisterForCopy_spec inst st R st2 R2 :
  UnregisterForCopy inst st R = (st2, R2) ->
  exists tr, Evolves st st2 tr /\ Values st2 = Values st /\ NoCopies tr.
Proof.
  unfold UnregisterForCopy. destruct (Registered st inst); intros [= <- <-].
  - exists [EvUnregisterComponent inst].
    split; [apply Evolves_SetRegistered |]. split; [reflexivity |].
    no_copies.
  - exists []. split; [apply Evolves_refl |]. split; [reflexivity |].
    no_copies.
Qed.

Lemma PropagateLoop_spec P T : forall toChange st M R st' M' R',
  PropagateLoop P T toChange (st, M, R) = (st', M', R') ->
  exists tr,
    Evolves st st' tr
    /\ (forall c q, c ∉ toChange \/ q <> PropAddr P ->
          Values st' c q = Values st c q)
    /\ (forall src dst p, In (EvCopySingleProperty src dst p) tr ->
          src = T /\ p = PropAddr P /\ dst ∈ toChange /\ dst <> nullptr)
    /\ (forall dst, dst ∈ toChange -> dst <> nullptr ->
          IsCreatedByConstructionScript dst = false ->
          inl dst ∈ M
          \/ (In (EvSetFlags (inl dst) RF_Transactional) tr
              /\ In (EvModify (inl dst)) tr
              /\ IsTransactional st' (inl dst))).
Proof.
  induction toChange as [| x rest IH]; intros st M R st' M' R' Hrun;
    cbn in Hrun.
  { injection Hrun as <- <- <-. exists [].
    split; [apply Evolves_refl |]. split; [done |].
    split; [intros ? ? ? [] |].
    intros dst Hdst. by apply elem_of_nil in Hdst. }
  destruct (x =? nullptr)%N eqn:Hnull.
  { apply N.eqb_eq in Hnull.
    destruct (IH _ _ _ _ _ _ Hrun) as (tr & Hev & Hval & Hcp & Htx).
    exists tr. split; [exact Hev |]. split.
    { intros c q [Hc | Hq]; apply Hval; [left | by right].
      intros Hin. apply Hc. by right. }
    split.
    { intros src dst p Hin. destruct (Hcp _ _ _ Hin) as (? & ? & ? & ?).
      repeat split; auto. by right. }
    intros dst Hdst Hnn Hcs.
    apply elem_of_cons in Hdst as [-> | Hdst]; [congruence | auto]. }
  apply N.eqb_neq in Hnull.
  destruct (MarkInstance x st M) as [st1 M1] eqn:Hmark.
  destruct (UnregisterForCopy x st1 R) as [st2 R2] eqn:Hunreg.
  destruct (MarkInstance_spec _ _ _ _ _ Hmark)
    as (trm & Hevm & Hvalm & _ & Hncm & HM1 & Hcsm).
  destruct (UnregisterForCopy_spec _ _ _ _ _ Hunreg)
    as (tru & Hevu & Hvalu & Hncu).
  destruct (IH _ _ _ _ _ _ Hrun) as (tr3 & Hev3 & Hval3 & Hcp3 & Htx3).
  pose proof (Evolves_CopySingleProperty T x P st2) as Hevc.
  exists (trm ++ tru ++ [EvCopySingleProperty T x (PropAddr P)] ++ tr3).
  split.
  { eapply Evolves_trans; [exact Hevm |].
    eapply Evolves_trans; [exact Hevu |].
    eapply Evolves_trans; [exact Hevc | exact Hev3]. }
  split.
  { intros c q Hcq.
    rewrite Hval3.
    2: { destruct Hcq as [Hc | Hq]; [left | by right].
         intros Hin. apply Hc. by right. }
    rewrite CopySingleProperty_Values, Hvalu, Hvalm.
    rewrite decide_False; [reflexivity |].
    intros [-> ->]. destruct Hcq as [Hc | Hq]; [| done].
    apply Hc. by left. }
  split.
  { intros src dst p Hin.
    apply in_app_or in Hin as [Hin | Hin]; [by apply Hncm in Hin |].
    apply in_app_or in Hin as [Hin | Hin]; [by apply Hncu in Hin |].
    destruct Hin as [Heq | Hin].
    - injection Heq as <- <- <-. repeat split; auto. by left.
    - destruct (Hcp3 _ _ _ Hin) as (? & ? & ? & ?).
      repeat split; auto. by right. }
  intros dst Hdst Hnn Hcs.
  assert (Hfrom1 : inl dst ∈ M1 ->
            inl dst ∈ M
            \/ In (EvSetFlags (inl dst) RF_Transactional)
                 (trm ++ tru ++ [EvCopySingleProperty T x (PropAddr P)] ++ tr3)
               /\ In (EvModify (inl dst))
                    (trm ++ tru ++ [EvCopySingleProperty T x (PropAddr P)]
                     ++ tr3)
               /\ IsTransactional st' (inl dst)).
  { intros Hin1. destruct (HM1 _ Hin1) as [? | (-> & Hs & Hm & Ht)];
      [by left | right].
    split; [apply in_or_app; by left |].
    split; [apply in_or_app; by left |].
    apply (evolves_flags _ _ _ Hev3), (evolves_flags _ _ _ Hevc),
      (evolves_flags _ _ _ Hevu), Ht. }
  apply elem_of_cons in Hdst as [-> | Hdst].
  - apply Hfrom1, Hcsm, Hcs.
  - destruct (Htx3 dst Hdst Hnn Hcs) as [Hin1 | (Hs & Hm & Ht)];
      [by apply Hfrom1 | right].
    split; [do 3 (apply in_or_app; right); exact Hs |].
    split; [do 3 (apply in_or_app; right); exact Hm | exact Ht].
Qed.

(** *** One property *)

Lemma elem_of_ComponentArchetypeInstances O Src Tgt x :
  x ∈ ComponentArchetypeInstances O Src Tgt ->
  HasFlag (Flags O) PropagateChangesToArchetypeInstances = true
  /\ inl x ∈ GetArchetypeInstances Tgt
  /\ x <> nullptr /\ x <> Src /\ x <> Tgt.
Proof.
  unfold ComponentArchetypeInstances.
  destruct (HasFlag (Flags O) PropagateChangesToArchetypeInstances);
    [| intros Hx; by apply elem_of_nil in Hx].
  rewrite list_elem_of_omap. intros (o & Hin & Ho).
  destruct o as [c | c]; cbn in Ho; [| discriminate].
  destruct (c =? nullptr)%N eqn:Hnull; [discriminate |].
  destruct (c =? Src)%N eqn:Hs; [discriminate |].
  destruct (c =? Tgt)%N eqn:Ht; [discriminate |].
  cbn in Ho. injection Ho as <-.
  apply N.eqb_neq in Hnull, Hs, Ht. auto.
Qed.

(** What the instances passed to the property loop have in common. *)
Definition ProperInstances (Src Tgt : UActorComponent)
    (insts : list UActorComponent) : Prop :=
  forall x, x ∈ insts -> x <> Src /\ x <> Tgt.

(** The copies into instances found in a trace are justified: made from
    the target, for the property at hand, into a selected instance whose
    values matched, with the instance put under the transaction. *)
Definition PropagationJustified (O : FCopyOptions)
    (Tgt : UActorComponent) (insts : list UActorComponent)
    (V : N -> UActorComponent -> Value) (addrs : list N)
    (tr : list Event) (st' : EditorState) : Prop :=
  forall src dst p,
    In (EvCopySingleProperty src dst p) tr -> dst <> Tgt ->
    src = Tgt /\ p ∈ addrs
    /\ HasFlag (Flags O) PropagateChangesToArchetypeInstances = true
    /\ dst ∈ insts
    /\ PropagationOK (V p) Tgt dst
    /\ (IsCreatedByConstructionScript dst = false ->
        In (EvSetFlags (inl dst) RF_Transactional) tr
        /\ In (EvModify (inl dst)) tr
        /\ IsTransactional st' (inl dst)).

Lemma Evolves_notify (b : bool) e st :
  Evolves st (if b then log e st else st) (if b then [e] else []).
Proof. destruct b; [apply Evolves_log | apply Evolves_refl]. Qed.

Lemma ApplyCopy_spec fuel O Src Tgt insts P st R st' R' :
  ApplyCopy fuel O Src Tgt insts P st R = Done (st', R') ->
  ProperInstances Src Tgt insts ->
  exists tr,
    Evolves st st' tr
    /\ (forall c q, q <> PropAddr P -> Values st' c q = Values st c q)
    /\ (forall q, Values st' Src q = Values st Src q)
    /\ Values st' Tgt (PropAddr P) = Values st Src (PropAddr P)
    /\ PropagationJustified O Tgt insts (fun p c => Values st c p)
         [PropAddr P] tr st'.
Proof.
  intros Hrun Hproper. unfold ApplyCopy in Hrun.
  rewrite bool_decide_eq_false_2 in Hrun by set_solver. cbn [negb] in Hrun.
  set (st1 := Modify (inl Tgt) (SetFlags (inl Tgt) RF_Transactional st))
    in Hrun.
  set (t1 := [EvSetFlags (inl Tgt) RF_Transactional; EvModify (inl Tgt)]).
  assert (Hev1 : Evolves st st1 t1).
  { apply (Evolves_trans st (SetFlags (inl Tgt) RF_Transactional st) st1
             [_] [_]); [apply Evolves_SetFlags | apply Evolves_Modify]. }
  set (bNotify := HasFlag (Flags O) CallPostEditChangeProperty) in Hrun.
  set (st2 := if bNotify then PreEditChange Tgt P st1 else st1) in Hrun.
  set (t2 := if bNotify then [EvPreEditChange Tgt (PropAddr P)] else []).
  assert (Hev2 : Evolves st1 st2 t2) by apply Evolves_notify.
  assert (Hval2 : Values st2 = Values st) by (unfold st2; by destruct bNotify).
  assert (Hnc2 : NoCopies t2) by (unfold t2; destruct bNotify; no_copies).
  set (st3 := CopySingleProperty Src Tgt P st2) in Hrun.
  set (t3 := [EvCopySingleProperty Src Tgt (PropAddr P)]).
  assert (Hev3 : Evolves st2 st3 t3) by apply Evolves_CopySingleProperty.
  set (st4 := if bNotify then PostEditChangeProperty Tgt P st3 else st3)
    in Hrun.
  set (t4 := if bNotify then [EvPostEditChangeProperty Tgt (PropAddr P)]
             else []).
  assert (Hev4 : Evolves st3 st4 t4) by apply Evolves_notify.
  assert (Hval4 : Values st4 = Values st3)
    by (unfold st4; by destruct bNotify).
  assert (Hnc4 : NoCopies t4) by (unfold t4; destruct bNotify; no_copies).
  assert (Hev14 : Evolves st st4 (t1 ++ t2 ++ t3 ++ t4)).
  { repeat (eapply Evolves_trans; [eassumption |]). exact Hev4. }
  assert (Hv4 : forall c q,
            Values st4 c q
            = if decide (c = Tgt /\ q = PropAddr P)
              then Values st Src (PropAddr P) else Values st c q).
  { intros c q. rewrite Hval4. unfold st3.
    by rewrite CopySingleProperty_Values, Hval2. }
  assert (Hsrc4 : forall q, Values st4 Src q = Values st Src q).
  { intros q. rewrite Hv4. case_decide as Hd; [| reflexivity].
    by destruct Hd as [-> ->]. }
  assert (Hhead : forall src dst p,
            In (EvCopySingleProperty src dst p) (t1 ++ t2 ++ t3 ++ t4) ->
            dst = Tgt).
  { intros src dst p Hin.
    apply in_app_or in Hin as [Hin | Hin];
      [by destruct Hin as [H' | [H' | []]] |].
    apply in_app_or in Hin as [Hin | Hin]; [by apply Hnc2 in Hin |].
    apply in_app_or in Hin as [Hin | Hin]; [| by apply Hnc4 in Hin].
    destruct Hin as [[= _ <- _] | []]. reflexivity. }
  destruct (HasFlag (Flags O) PropagateChangesToArchetypeInstances) eqn:Hprop.
  - destruct (InstancesToChange fuel st2 P Tgt insts []) as [l | |] eqn:Hitc;
      try discriminate Hrun.
    cbn [obind] in Hrun.
    destruct (PropagateLoop P Tgt l (st4, {[inl Tgt]} ∪ ∅, R))
      as [[st5 M5] R5] eqn:Hloop.
    injection Hrun as <- <-.
    assert (Hl : forall x, x ∈ l ->
              x ∈ insts /\ x <> nullptr
              /\ PropagationOK (fun c => Values st c (PropAddr P)) Tgt x).
    { intros x Hx.
      destruct (InstancesToChange_spec _ _ _ _ _ _ _ Hitc x Hx)
        as [Hnil | Hok]; [by apply elem_of_nil in Hnil |].
      by rewrite Hval2 in Hok. }
    assert (HTl : Tgt ∉ l).
    { intros Hin. apply Hl in Hin as [Hin _].
      by destruct (Hproper _ Hin). }
    assert (HSl : Src ∉ l).
    { intros Hin. apply Hl in Hin as [Hin _].
      by destruct (Hproper _ Hin). }
    destruct (PropagateLoop_spec _ _ _ _ _ _ _ _ _ Hloop)
      as (t5 & Hev5 & Hval5 & Hcp5 & Htx5).
    exists ((t1 ++ t2 ++ t3 ++ t4) ++ t5).
    split; [eapply Evolves_trans; eassumption |].
    split.
    { intros c q Hq. rewrite Hval5 by (by right). rewrite Hv4.
      rewrite decide_False; [reflexivity | tauto]. }
    split.
    { intros q. rewrite Hval5 by (by left). apply Hsrc4. }
    split.
    { rewrite Hval5 by (by left). rewrite Hv4. by rewrite decide_True. }
    intros src dst p Hin Hdst.
    apply in_app_or in Hin as [Hin | Hin];
      [by apply Hhead in Hin |].
    destruct (Hcp5 _ _ _ Hin) as (-> & -> & Hdl & Hnn).
    destruct (Hl _ Hdl) as (Hdi & _ & Hok).
    split; [reflexivity |]. split; [by left |]. split; [exact Hprop |].
    split; [exact Hdi |]. split; [exact Hok |].
    intros Hcs.
    destruct (Htx5 dst Hdl Hnn Hcs) as [HinM | (Hs & Hm & Ht)].
    + exfalso. set_solver.
    + split; [apply in_or_app; by right |].
      split; [apply in_or_app; by right | exact Ht].
  - cbn [obind] in Hrun. injection Hrun as <- <-.
    exists (t1 ++ t2 ++ t3 ++ t4).
    split; [exact Hev14 |].
    split.
    { intros c q Hq. rewrite Hv4.
      rewrite decide_False; [reflexivity | tauto]. }
    split; [exact Hsrc4 |].
    split; [rewrite Hv4; by rewrite decide_True |].
    intros src dst p Hin Hdst. by apply Hhead in Hin.
Qed.

(** The property is written into the target: it gets past the filters
    and the run is not a preview. *)
Definition WillCopy (O : FCopyOptions) (UCS : gset N)
    (Src Tgt : UActorComponent) (st : EditorState) (P : FProperty) : bool :=
  negb (HasFlag (Flags O) PreviewOnly) && PassesFilters O UCS Src Tgt st P.



Lemma PropagationJustified_nil O Tgt insts V addrs st :
  PropagationJustified O Tgt insts V addrs [] st.
Proof. intros src dst p []. Qed.

Lemma PropertyStep_spec fuel O UCS Src Tgt insts P st n R st' n' R' :
  PropertyStep fuel O UCS Src Tgt insts P (st, n, R) = Done (st', n', R') ->
  ProperInstances Src Tgt insts ->
  n' = (if PassesFilters O UCS Src Tgt st P then int32_wrap (n + 1) else n)
  /\ (WillCopy O UCS Src Tgt st P = false -> st' = st /\ R' = R)
  /\ exists tr,
       Evolves st st' tr
       /\ (forall c q, q <> PropAddr P -> Values st' c q = Values st c q)
       /\ (forall q, Values st' Src q = Values st Src q)
       /\ Values st' Tgt (PropAddr P)
          = (if WillCopy O UCS Src Tgt st P
             then Values st Src (PropAddr P)
             else Values st Tgt (PropAddr P))
       /\ PropagationJustified O Tgt insts (fun p c => Values st c p)
            [PropAddr P] tr st'.
Proof.
  intros Hrun Hproper. unfold PropertyStep in Hrun. unfold WillCopy.
  destruct (PassesFilters O UCS Src Tgt st P) eqn:Hpass.
  2: { injection Hrun as <- <- <-. rewrite andb_false_r.
       split; [reflexivity |]. split; [done |].
       exists []. split; [apply Evolves_refl |].
       split; [done |]. split; [done |]. split; [done |].
    apply PropagationJustified_nil. }
  destruct (HasFlag (Flags O) PreviewOnly) eqn:Hprev; cbn [negb obind] in Hrun.
  { injection Hrun as <- <- <-. cbn.
    split; [reflexivity |]. split; [done |].
    exists []. split; [apply Evolves_refl |].
    split; [done |]. split; [done |]. split; [done |].
    apply PropagationJustified_nil. }
  destruct (ApplyCopy fuel O Src Tgt insts P st R) as [[st1 R1] | |] eqn:Happ;
    try discriminate Hrun.
  cbn in Hrun. injection Hrun as <- <- <-.
  split; [reflexivity |]. split; [discriminate |].
  destruct (ApplyCopy_spec _ _ _ _ _ _ _ _ _ _ Happ Hproper)
    as (tr & Hev & Hfr & Hsrc & Htgt & Hjust).
  exists tr. cbn. auto.
Qed.

Lemma ApplyCopy_total fuel O Src Tgt insts P st R :
  (forall x, x ∈ insts -> GetArchetype x = inl Tgt) ->
  exists r, ApplyCopy fuel O Src Tgt insts P st R = Done r.
Proof.
  intros Hdirect. unfold ApplyCopy.
  destruct (negb (bool_decide (inl Tgt ∈ (∅ : gset UObject)))).
  - destruct (HasFlag (Flags O) PropagateChangesToArchetypeInstances).
    + match goal with
      | |- context [InstancesToChange fuel ?s P Tgt insts []] =>
          destruct (InstancesToChange_total fuel s P Tgt insts [] Hdirect)
            as [l ->]
      end.
      cbn [obind]. destruct (PropagateLoop _ _ _ _) as [[? ?] ?].
      by eexists.
    + cbn [obind]. by eexists.
  - destruct (HasFlag (Flags O) PropagateChangesToArchetypeInstances).
    + match goal with
      | |- context [InstancesToChange fuel ?s P Tgt insts []] =>
          destruct (InstancesToChange_total fuel s P Tgt insts [] Hdirect)
            as [l ->]
      end.
      cbn [obind]. destruct (PropagateLoop _ _ _ _) as [[? ?] ?].
      by eexists.
    + cbn [obind]. by eexists.
Qed.

Lemma PropertyStep_total fuel O UCS Src Tgt insts P acc :
  (forall x, x ∈ insts -> GetArchetype x = inl Tgt) ->
  exists r, PropertyStep fuel O UCS Src Tgt insts P acc = Done r.
Proof.
  intros Hdirect. destruct acc as [[st n] R]. unfold PropertyStep.
  destruct (PassesFilters O UCS Src Tgt st P); [| by eexists].
  destruct (negb (HasFlag (Flags O) PreviewOnly)); [| by eexists].
  destruct (ApplyCopy_total fuel O Src Tgt insts P st R Hdirect) as [r ->].
  by eexists.
Qed.

(** *** The loop over the properties *)





Lemma PropagationJustified_weaken O Tgt insts V addrs addrs' tr st :
  (forall p, p ∈ addrs -> p ∈ addrs') ->
  PropagationJustified O Tgt insts V addrs tr st ->
  PropagationJustified O Tgt insts V addrs' tr st.
Proof.
  intros Hsub Hj src dst p Hin Hdst.
  destruct (Hj src dst p Hin Hdst) as (Hs & Hp & Hf & Hi & Hok & Htx).
  split; [done |]. split; [by apply Hsub |]. split; [done |].
  split; [done |]. split; done.
Qed.



Lemma PropertyLoop_total fuel O UCS Src Tgt insts :
  (forall x, x ∈ insts -> GetArchetype x = inl Tgt) ->
  forall props acc,
    exists r, PropertyLoop fuel O UCS Src Tgt insts props acc = Done r.
Proof.
  intros Hdirect. induction props as [| P rest IH]; intros acc; cbn.
  - by eexists.
  - destruct (PropertyStep_total fuel O UCS Src Tgt insts P acc Hdirect)
      as [r ->].
    cbn. apply IH.
Qed.




Lemma ProperInstances_ComponentArchetypeInstances O Src Tgt :
  ProperInstances Src Tgt (ComponentArchetypeInstances O Src Tgt).
Proof.
  intros x Hx.
  destruct (elem_of_ComponentArchetypeInstances _ _ _ _ Hx)
    as (_ & _ & _ & ? & ?).
  by split.
Qed.

(** *** The whole function *)


Lemma CopyComponentProperties_total fuel Src Tgt O st :
  GetClass Src = GetClass Tgt ->
  (forall x, x ∈ ComponentArchetypeInstances O Src Tgt ->
     GetArchetype x = inl Tgt) ->
  exists n st', CopyComponentProperties fuel Src Tgt O st = Done (n, st').
Proof.
  intros Hcls Hdirect. unfold CopyComponentProperties.
  rewrite Hcls, N.eqb_refl. cbn [negb].
  destruct (PropertyLoop_total fuel O (GetUCSModifiedProperties Src) Src Tgt
              _ Hdirect (PropertyLink (GetClass Tgt)) (st, 0%Z, []))
    as [[[st1 n1] R1] ->].
  cbn. by do 2 eexists.
Qed.


(** *** The statements of the specification *)








(** *** Further properties of [CopyComponentProperties] *)





Lemma PropertyLoop_count fuel O UCS Src Tgt insts :
  ProperInstances Src Tgt insts ->
  forall props st n R st' n' R',
    PropertyLoop fuel O UCS Src Tgt insts props (st, n, R)
    = Done (st', n', R') ->
    (0 <= n)%Z -> (n + Z.of_nat (length props) < 2 ^ 31)%Z ->
    (n <= n' <= n + Z.of_nat (length props))%Z
    /\ (n' = n -> st' = st /\ R' = R).
Proof.
  intros Hproper.
  induction props as [| P rest IH]; intros st n R st' n' R' Hrun Hn Hlen;
    cbn [PropertyLoop] in Hrun.
  { injection Hrun as <- <- <-. cbn. split; [lia | done]. }
  destruct (PropertyStep fuel O UCS Src Tgt insts P (st, n, R))
    as [[[st1 n1] R1] | |] eqn:Hstep; try discriminate Hrun.
  cbn [obind] in Hrun. cbn [length] in Hlen.
  destruct (PropertyStep_spec _ _ _ _ _ _ _ _ _ _ _ _ _ Hstep Hproper)
    as (Hn1 & Hsame & _).
  unfold WillCopy in Hsame.
  destruct (PassesFilters O UCS Src Tgt st P) eqn:Hpass.
  - rewrite int32_wrap_small in Hn1 by lia.
    destruct (IH _ _ _ _ _ _ Hrun) as [Hb _]; [lia | lia |].
    cbn [length]. split; [lia |]. intros ->. lia.
  - rewrite andb_false_r in Hsame. destruct (Hsame eq_refl) as [-> ->].
    subst n1. destruct (IH _ _ _ _ _ _ Hrun Hn) as [Hb Hz]; [lia |].
    cbn [length]. split; [lia | exact Hz].
Qed.

(** The returned count lies between 0 and the number of properties of
    the class (a class has fewer than [2^31] of them), and a run that
    returns 0 has changed nothing at all. *)
Theorem CopyComponentProperties_count_bounds fuel Src Tgt O st n st' :
  (Z.of_nat (length (PropertyLink (GetClass Src))) < 2 ^ 31)%Z ->
  CopyComponentProperties fuel Src Tgt O st = Done (n, st') ->
  (0 <= n <= Z.of_nat (length (PropertyLink (GetClass Src))))%Z
  /\ (n = 0%Z -> st' = st).
Proof.
  intros Hlen Hrun. unfold CopyComponentProperties in Hrun.
  destruct (GetClass Src =? GetClass Tgt)%N; [| discriminate].
  cbn [negb] in Hrun.
  destruct (PropertyLoop _ _ _ _ _ _ _ _) as [[[st1 n1] R1] | |] eqn:Hloop;
    try discriminate Hrun.
  cbn [obind] in Hrun. injection Hrun as <- <-.
  destruct (PropertyLoop_count _ _ _ _ _ _
              (ProperInstances_ComponentArchetypeInstances O Src Tgt)
              _ _ _ _ _ _ _ Hloop) as [Hb Hz]; [lia | lia |].
  split; [lia |].
  intros ->. by destruct (Hz eq_refl) as [-> ->].
Qed.

(** *** What a run may touch *)




















(** *** Which instances receive the change *)






End Editor.

(** *** A sample scene

    The engine's values for the flags and names, and a small object
    graph: source 10 and target 20 of one class with four properties; the
    target's archetype instances are the components 30 (registered), 31
    (created by a construction script) and 32, all deriving from 20
    directly and owned by actor 50, and one object that is no component.
    The source holds [100 + p] in property [p], instance 32 holds
    [300 + p], every other component [200 + p]. *)
Module Sample.

Definition CPF_Edit : Z := 0x1.
Definition CPF_DisableEditOnTemplate : Z := 0x800.
Definition CPF_Transient : Z := 0x2000.
Definition CPF_InstancedReference : Z := 0x80000.
Definition CPF_Interp : Z := 0x200000000.
Definition CPF_ContainsInstancedReference : Z := 0x8000000000.
Definition RF_Transactional : Z := 0x8.

Definition PreviewOnly : Z := Z.shiftl 1 0.
Definition CallPostEditChangeProperty : Z := Z.shiftl 1 1.
Definition OnlyCopyEditOrInterpProperties : Z := Z.shiftl 1 3.
Definition PropagateChangesToArchetypeInstances : Z := Z.shiftl 1 4.
Definition SkipInstanceOnlyProperties : Z := Z.shiftl 1 6.

Definition RelativeLocation : FProperty :=
  {| PropAddr := 1; GetFName := "RelativeLocation";
     PropertyFlags := CPF_Edit |}.
Definition Mobility : FProperty :=
  {| PropAddr := 2; GetFName := "Mobility"; PropertyFlags := CPF_Edit |}.
Definition CachedBounds : FProperty :=
  {| PropAddr := 3; GetFName := "CachedBounds";
     PropertyFlags := CPF_Transient |}.
Definition Template : FProperty :=
  {| PropAddr := 4; GetFName := "Template";
     PropertyFlags := Z.lor CPF_Edit CPF_InstancedReference |}.

Definition GetClass (c : UActorComponent) : UClass := 1%N.
Definition PropertyLink (cls : UClass) : list FProperty :=
  [RelativeLocation; Mobility; CachedBounds; Template].
Definition GetArchetypeInstances (c : UActorComponent) : list UObject :=
  [inl 30; inl 31; inr 7; inl 32]%N.
Definition GetArchetype (c : UActorComponent) : UObject := inl 20%N.
(** A deeper scene: instance 30 derives from the target through
    component 25, and the target has no archetype that is a component. *)
Definition GetArchetypeChain (c : UActorComponent) : UObject :=
  if (c =? 30)%N then inl 25%N
  else if (c =? 25)%N then inl 20%N
  else if (c =? 20)%N then inl nullptr
  else inl 20%N.
Definition GetUCSModifiedProperties (c : UActorComponent) : gset N := ∅.
Definition IsCreatedByConstructionScript (c : UActorComponent) : bool :=
  (c =? 31)%N.
Definition GetOwner (c : UActorComponent) : AActor := 50%N.

Definition Initial : @EditorState Z :=
  {| Values := fun c p =>
       if (c =? 10)%N then (100 + Z.of_N p)%Z
       else if (c =? 32)%N then (300 + Z.of_N p)%Z
       else (200 + Z.of_N p)%Z;
     ObjectFlags := fun _ => 0%Z;
     Registered := fun c => (c =? 30)%N;
     Calls := [] |}.

Definition Options (flags : Z) : FCopyOptions :=
  {| Flags := flags; PropertyFilter := None |}.

Definition CopyComponentProperties :=
  PropertyCopy.CopyComponentProperties (Value := Z)
    CPF_Edit CPF_Interp CPF_Transient CPF_DisableEditOnTemplate
    CPF_InstancedReference CPF_ContainsInstancedReference RF_Transactional
    PreviewOnly CallPostEditChangeProperty OnlyCopyEditOrInterpProperties
    SkipInstanceOnlyProperties PropagateChangesToArchetypeInstances
    "RelativeScale3D" "RelativeLocation" "RelativeRotation"
    GetClass PropertyLink GetArchetypeInstances GetArchetype
    GetUCSModifiedProperties IsCreatedByConstructionScript GetOwner.

(** What a finished run returned, and the calls and target values it
    left. *)
Definition Returned (r : Outcome (Z * @EditorState Z)) : option Z :=
  match r with Done (n, _) => Some n | _ => None end.

Definition CallsOf (r : Outcome (Z * @EditorState Z)) : list Event :=
  match r with Done (_, st) => Calls st | _ => [] end.

Definition ValuesOf (r : Outcome (Z * @EditorState Z))
    (c : UActorComponent) : list Z :=
  match r with
  | Done (_, st) => (fun P => Values st c (PropAddr P)) <$> PropertyLink 1%N
  | _ => []
  end.

End Sample.


(** With propagation and notifications: instances 30 and 31 hold the
    target's old value and get the new one, 32 does not. *)
Example CopyComponentProperties_propagating :
  let r := Sample.CopyComponentProperties 0 10%N 20%N
             (Sample.Options
                (Z.lor Sample.PropagateChangesToArchetypeInstances
                   Sample.CallPostEditChangeProperty))
             Sample.Initial in
  Sample.Returned r = Some 1%Z
  /\ Sample.ValuesOf r 20%N = [201; 102; 203; 204]%Z
  /\ Sample.ValuesOf r 30%N = [201; 102; 203; 204]%Z
  /\ Sample.ValuesOf r 31%N = [201; 102; 203; 204]%Z
  /\ Sample.ValuesOf r 32%N = [301; 302; 303; 304]%Z
  /\ Sample.CallsOf r
     = [EvSetFlags (inl 20%N) 8; EvModify (inl 20%N);
        EvPreEditChange 20%N 2%N;
        EvCopySingleProperty 10%N 20%N 2%N;
        EvPostEditChangeProperty 20%N 2%N;
        EvSetFlags (inl 30%N) 8; EvModify (inl 30%N); EvModify (inr 50%N);
        EvUnregisterComponent 30%N;
        EvCopySingleProperty 20%N 30%N 2%N;
        EvCopySingleProperty 20%N 31%N 2%N;
        EvRegisterComponent 30%N].
Proof. vm_compute. auto 10. Qed.

Example CopyComponentProperties_previewing :
  let r := Sample.CopyComponentProperties 0 10%N 20%N
             (Sample.Options Sample.PreviewOnly) Sample.Initial in
  Sample.Returned r = Some 1%Z
  /\ Sample.ValuesOf r 20%N = [201; 202; 203; 204]%Z
  /\ Sample.CallsOf r = [].
Proof. vm_compute. auto. Qed.

(** In the deeper scene the walk from instance 30 goes 25, 20 and on to
    the target's archetype: the loop of lines 319-327 compares with the
    instance it started from, which an archetype chain does not come back
    to.  Every component on the way holds the target's value of
    [Mobility], so the walk ends in the failed [CastChecked] and the run
    does not return, whatever the fuel. *)
Example CopyComponentProperties_walk_aborts fuel :
  PropertyCopy.CopyComponentProperties (Value := Z)
    Sample.CPF_Edit Sample.CPF_Interp Sample.CPF_Transient
    Sample.CPF_DisableEditOnTemplate Sample.CPF_InstancedReference
    Sample.CPF_ContainsInstancedReference Sample.RF_Transactional
    Sample.PreviewOnly Sample.CallPostEditChangeProperty
    Sample.OnlyCopyEditOrInterpProperties
    Sample.SkipInstanceOnlyProperties
    Sample.PropagateChangesToArchetypeInstances
    "RelativeScale3D" "RelativeLocation" "RelativeRotation"
    Sample.GetClass Sample.PropertyLink Sample.GetArchetypeInstances
    Sample.GetArchetypeChain Sample.GetUCSModifiedProperties
    Sample.IsCreatedByConstructionScript Sample.GetOwner
    (2 + fuel) 10%N 20%N
    (Sample.Options Sample.PropagateChangesToArchetypeInstances)
    Sample.Initial
  = Aborted.
Proof. vm_compute. reflexivity. Qed.

Lemma Sample_direct flags :
  forall x,
    x ∈ ComponentArchetypeInstances
          Sample.PropagateChangesToArchetypeInstances
          Sample.GetArchetypeInstances (Sample.Options flags) 10%N 20%N ->
    Sample.GetArchetype x = inl 20%N.
Proof. reflexivity. Qed.






(** The statements above at the sample scene. *)
Local Abbreviation at_sample thm :=
  (thm Sample.CPF_Edit Sample.CPF_Interp Sample.CPF_Transient
     Sample.CPF_DisableEditOnTemplate Sample.CPF_InstancedReference
     Sample.CPF_ContainsInstancedReference Sample.RF_Transactional
     Sample.PreviewOnly Sample.CallPostEditChangeProperty
     Sample.OnlyCopyEditOrInterpProperties
     Sample.SkipInstanceOnlyProperties
     Sample.PropagateChangesToArchetypeInstances
     "RelativeScale3D" "RelativeLocation" "RelativeRotation"
     Sample.GetClass Sample.PropertyLink Sample.GetArchetypeInstances
     Sample.GetArchetype Sample.GetUCSModifiedProperties
     Sample.IsCreatedByConstructionScript Sample.GetOwner) (only parsing).

Definition Sample_propagating : FCopyOptions :=
  Sample.Options Sample.PropagateChangesToArchetypeInstances.

Lemma Sample_run :
  exists n st',
    Sample.CopyComponentProperties 0 10%N 20%N Sample_propagating
      Sample.Initial
    = Done (n, st').
Proof.
  apply (at_sample CopyComponentProperties_total);
    [reflexivity | apply Sample_direct].
Qed.



Lemma CopyComponentProperties_count_bounds_witness :
  (Z.of_nat (length (Sample.PropertyLink (Sample.GetClass 10%N))) < 2 ^ 31)%Z
  /\ exists n st',
       Sample.CopyComponentProperties 0 10%N 20%N Sample_propagating
         Sample.Initial
       = Done (n, st')
       /\ (0 <= n <= 4)%Z.
Proof.
  split; [reflexivity |].
  destruct Sample_run as (n & st' & Hrun).
  exists n, st'. split; [exact Hrun |].
  exact (proj1 (at_sample CopyComponentProperties_count_bounds
                  0 10%N 20%N Sample_propagating Sample.Initial n st'
                  eq_refl Hrun)).
Defined.





End PropertyCopy.
